(** * TinyNightLight: NeoPixel transmitter, rotary encoder and controller

    A shallow embedding of [software/TinyNightLight.ino] (ATtiny13A firmware)
    and the properties of its three parts: the bit-banged pixel transmitter,
    the interrupt-driven quadrature decoder and the four-state main loop.

    Conventions.  [uint8_t] and [int16_t] values are integers of [Z] with the
    wrap-around written out ([u8], [i16]); on the AVR target [int] is 16 bits
    wide, so every intermediate of the encoder arithmetic is an [i16].  The
    data line of the pixels is modelled by the sequence of bits clocked out
    on it; delays ([NEO_latch], [_delay_ms]) only let time pass and have no
    counterpart here. *)

From Stdlib Require Import ZArith List Bool Lia.
Import ListNotations.
Local Open Scope Z_scope.

(* ------------------------------------------------------------------------- *)
(** ** Machine integers *)

(** Truncation to [uint8_t]. *)
Definition u8 (z : Z) : Z := z mod 256.

(** Truncation to [int16_t] (two's complement). *)
Definition i16 (z : Z) : Z := (z + 32768) mod 65536 - 32768.

Definition is_u8 (z : Z) : Prop := 0 <= z < 256.
Definition is_i16 (z : Z) : Prop := -32768 <= z < 32768.

(* ------------------------------------------------------------------------- *)
(** ** Pin definitions and macros *)

Definition PIN_NEO : Z := 0.
Definition PIN_ENABLE : Z := 1.
Definition PIN_ENC_SW : Z := 2.
Definition PIN_ENC_A : Z := 3.
Definition PIN_ENC_B : Z := 4.

(** [pinRead(x)] is [PINB & (1<<(x))]; the port register is an argument. *)
Definition pinRead (PINB x : Z) : Z := Z.land PINB (Z.shiftl 1 x).

(** [pinOutput(x)] is [DDRB |= (1<<(x))], [pinInput(x)] is
    [DDRB &= ~(1<<(x))]; both return the new value of [DDRB]. *)
Definition pinOutput (DDRB x : Z) : Z := Z.lor DDRB (Z.shiftl 1 x).
Definition pinInput (DDRB x : Z) : Z := Z.land DDRB (Z.lnot (Z.shiftl 1 x)).

(** C's logical negation of an integer, as a truth value. *)
Definition lnot0 (z : Z) : bool := z =? 0.

(* ------------------------------------------------------------------------- *)
(** ** Low-level NeoPixel implementation *)

(** What has been clocked out on the data line, oldest bit first.  A [true]
    is a slot in which the early [cbi] was skipped (long high time, a
    one-bit), a [false] a slot with the short high time. *)
Definition wire : Type := list bool.

Definition NEO_on (DDRB : Z) : Z := pinOutput DDRB PIN_ENABLE.
Definition NEO_off (DDRB : Z) : Z := pinInput DDRB PIN_ENABLE.

(** The loop of [NEO_sendByte]: [bit] slots are still to be sent; each slot
    tests bit 7 of the register ([sbrs byte, 7]) and then doubles the
    register ([add byte, byte]). *)
Fixpoint NEO_sendByte_loop (bit : nat) (byte : Z) (w : wire) : wire :=
  match bit with
  | O => w
  | S bit' =>
      NEO_sendByte_loop bit' (u8 (byte + byte)) (w ++ [Z.testbit byte 7])
  end.

Definition NEO_sendByte (byte : Z) (w : wire) : wire :=
  NEO_sendByte_loop 8 byte w.

(** [NEO_writeColor(r, g, b)]: green, then red, then blue.  The [cli]/[sei]
    bracket leaves the interrupt flag as it found it in the main loop
    (set). *)
Definition NEO_writeColor (r g b : Z) (w : wire) : wire :=
  NEO_sendByte b (NEO_sendByte r (NEO_sendByte g w)).

(** [sqr]: [x] additions of [x] in a [uint8_t] accumulator. *)
Fixpoint sqr_loop (i : nat) (x result : Z) : Z :=
  match i with
  | O => result
  | S i' => sqr_loop i' x (u8 (result + x))
  end.

Definition sqr (x : Z) : Z := sqr_loop (Z.to_nat x) x 0.

(** [NEO_writeHue(hue, bright)].  For [bright] in 0..15 the shift amount is
    in 0..7. *)
Definition NEO_writeHue (hue bright : Z) (w : wire) : wire :=
  let phase := Z.shiftr hue 4 in
  let hue := Z.land hue 15 in
  let bright := u8 (Z.shiftr (15 - bright) 1) in
  let step := u8 (Z.shiftr (sqr hue) bright + 1) in
  let nstep := u8 (Z.shiftr (sqr (u8 (15 - hue))) bright + 1) in
  match phase with
  | 0 => NEO_writeColor nstep step 0 w
  | 1 => NEO_writeColor 0 nstep step w
  | 2 => NEO_writeColor step 0 nstep w
  | _ => w
  end.

(** [NEO_writeWhite(bright)]. *)
Definition NEO_writeWhite (bright : Z) (w : wire) : wire :=
  let bright := sqr bright in
  NEO_writeColor bright bright bright w.

(** The [for(uint8_t i=8; i; i--)] loops of the main function, which send
    the same pixel [i] times. *)
Fixpoint repeat_pixel (i : nat) (px : wire -> wire) (w : wire) : wire :=
  match i with
  | O => w
  | S i' => repeat_pixel i' px (px w)
  end.

(** *** The receiving side

    A pixel chain shifts the bits in most significant bit first, eight to a
    byte, and takes each three bytes as green, red, blue.  These two
    functions read a bit sequence the way the pixels do; they are used to
    state what a transmission means. *)

Definition byte_of_bits (b7 b6 b5 b4 b3 b2 b1 b0 : bool) : Z :=
  128 * Z.b2z b7 + 64 * Z.b2z b6 + 32 * Z.b2z b5 + 16 * Z.b2z b4
  + 8 * Z.b2z b3 + 4 * Z.b2z b2 + 2 * Z.b2z b1 + Z.b2z b0.

Fixpoint wire_bytes (w : wire) : list Z :=
  match w with
  | b7 :: b6 :: b5 :: b4 :: b3 :: b2 :: b1 :: b0 :: w' =>
      byte_of_bits b7 b6 b5 b4 b3 b2 b1 b0 :: wire_bytes w'
  | _ => []
  end.

(** An RGB triple, in the argument order of [NEO_writeColor]. *)
Record rgb : Type := RGB { red : Z; green : Z; blue : Z }.

Fixpoint bytes_pixels (bs : list Z) : list rgb :=
  match bs with
  | g :: r :: b :: bs' => RGB r g b :: bytes_pixels bs'
  | _ => []
  end.

Definition wire_pixels (w : wire) : list rgb := bytes_pixels (wire_bytes w).

(* ------------------------------------------------------------------------- *)
(** ** Rotary encoder *)

(** The global variables of the encoder.  [ENC_a0], [ENC_b0] and [ENC_ab0]
    are [uint8_t] in the source but only ever hold the result of a [!] or
    of a [==], so they are truth values here; [ENC_loop] is tested for
    being non-zero; the four counters are [int16_t]. *)
Record Encoder : Type := mkEncoder {
  ENC_a0 : bool;
  ENC_b0 : bool;
  ENC_ab0 : bool;
  ENC_loop : Z;
  ENC_count : Z;
  ENC_countMin : Z;
  ENC_countMax : Z;
  ENC_countStep : Z
}.

(** The variables at reset (zero-initialised). *)
Definition ENC_reset : Encoder := mkEncoder false false false 0 0 0 0 0.

(** [ENC_init], as far as the variables go: the initial levels are sampled
    from the port. *)
Definition ENC_init (PINB : Z) (e : Encoder) : Encoder :=
  let a0 := lnot0 (pinRead PINB PIN_ENC_A) in
  let b0 := lnot0 (pinRead PINB PIN_ENC_B) in
  mkEncoder a0 b0 (Bool.eqb a0 b0) (ENC_loop e)
            (ENC_count e) (ENC_countMin e) (ENC_countMax e) (ENC_countStep e).

(** [ENC_set(rmin, rmax, rstep, rvalue, rloop)]. *)
Definition ENC_set (rmin rmax rstep rvalue rloop : Z) (e : Encoder) : Encoder :=
  mkEncoder (ENC_a0 e) (ENC_b0 e) (ENC_ab0 e) rloop
            (i16 (Z.shiftl rvalue 1))
            (i16 (Z.shiftl rmin 1))
            (i16 (Z.shiftl rmax 1))
            rstep.

(** [ENC_get()]. *)
Definition ENC_get (e : Encoder) : Z := Z.shiftr (ENC_count e) 1.

(** [ISR(PCINT0_vect)], run on the port value [PINB] it samples. *)
Definition PCINT0_vect (PINB : Z) (e : Encoder) : Encoder :=
  let a := lnot0 (pinRead PINB PIN_ENC_A) in
  let b := lnot0 (pinRead PINB PIN_ENC_B) in
  if negb (Bool.eqb a (ENC_a0 e)) then
    if negb (Bool.eqb b (ENC_b0 e)) then
      let d := if Bool.eqb a b then i16 (- ENC_countStep e)
               else ENC_countStep e in
      let c := i16 (ENC_count e + d) in
      let c := if negb (Bool.eqb (Bool.eqb a b) (ENC_ab0 e))
               then i16 (c + d) else c in
      let c := if c <? ENC_countMin e
               then (if ENC_loop e =? 0 then ENC_countMin e
                     else ENC_countMax e)
               else c in
      let c := if c >? ENC_countMax e
               then (if ENC_loop e =? 0 then ENC_countMax e
                     else ENC_countMin e)
               else c in
      mkEncoder a b (Bool.eqb a b) (ENC_loop e)
                c (ENC_countMin e) (ENC_countMax e) (ENC_countStep e)
    else
      mkEncoder a (ENC_b0 e) (ENC_ab0 e) (ENC_loop e)
                (ENC_count e) (ENC_countMin e) (ENC_countMax e)
                (ENC_countStep e)
  else e.

(** The bounds hold: [ENC_countMin <= ENC_count <= ENC_countMax]. *)
Definition ENC_in_bounds (e : Encoder) : Prop :=
  ENC_countMin e <= ENC_count e <= ENC_countMax e.

(** The handler run on a series of sampled port values, first one first. *)
Definition ENC_edges (ps : list Z) (e : Encoder) : Encoder :=
  fold_left (fun e' p => PCINT0_vect p e') ps e.

(** *** Simulated quadrature signals

    A pair is the electrical level of line A and of line B.  One edge of a
    clean rotation toggles exactly one line; four edges make a detent.  In
    the direction called clockwise here line A leads line B, which is the
    direction the handler counts up in for a positive step. *)

Definition levels : Type := (bool * bool)%type.

Definition cw_edge (p : levels) : levels :=
  let (A, B) := p in if Bool.eqb A B then (negb A, B) else (A, negb B).

Definition ccw_edge (p : levels) : levels :=
  let (A, B) := p in if Bool.eqb A B then (A, negb B) else (negb A, B).

(** The port value for given encoder levels; the button is released, so
    its pulled-up pin reads high. *)
Definition pins (p : levels) : Z :=
  Z.lor (Z.shiftl 1 PIN_ENC_SW)
        (Z.lor (if fst p then Z.shiftl 1 PIN_ENC_A else 0)
               (if snd p then Z.shiftl 1 PIN_ENC_B else 0)).

(** The levels after each of [n] successive edges, starting from [p]. *)
Fixpoint rotation (edge : levels -> levels) (n : nat) (p : levels)
  : list levels :=
  match n with
  | O => []
  | S n' => let q := edge p in q :: rotation edge n' q
  end.

(** The encoder follows a series of level changes; of the two encoder
    lines the pin-change interrupt is enabled for line A only
    ([pinIntEn(PIN_ENC_A)]), so the handler runs on the edges of A and not
    on those of B. *)
Fixpoint drive (prev : levels) (qs : list levels) (e : Encoder) : Encoder :=
  match qs with
  | [] => e
  | q :: qs' =>
      drive q qs'
            (if Bool.eqb (fst q) (fst prev) then e
             else PCINT0_vect (pins q) e)
  end.

(* ------------------------------------------------------------------------- *)
(** ** Main function *)

(** The local variables of [main] together with the hardware it acts on:
    the direction register, the encoder variables and the data line. *)
Record Controller : Type := mkController {
  state : Z;
  hue : Z;
  bright : Z;
  anim : Z;
  counter : Z;
  DDRB : Z;
  encoder : Encoder;
  data_line : wire
}.

(** The state on entry of the main loop: [NEO_init] has made the data pin
    an output and [ENC_init] has sampled the port. *)
Definition main_setup (PINB : Z) : Controller :=
  mkController 0 0 5 0 8 (pinOutput 0 PIN_NEO) (ENC_init PINB ENC_reset) [].

(** The pixel loop of state 2: eight pixels, six hue steps apart. *)
Fixpoint animate_pixels (i : nat) (huey bright : Z) (w : wire) : wire :=
  match i with
  | O => w
  | S i' =>
      let w := NEO_writeHue huey bright w in
      let huey := u8 (huey + 6) in
      let huey := if huey >? 47 then u8 (huey - 48) else huey in
      animate_pixels i' huey bright w
  end.

(** One pass through the body of [while(pinRead(PIN_ENC_SW))]. *)
Definition main_poll (c : Controller) : Controller :=
  match state c with
  | 1 =>
      let bright := u8 (ENC_get (encoder c)) in
      mkController (state c) (hue c) bright (anim c) (counter c) (DDRB c)
                   (encoder c)
                   (repeat_pixel 8 (NEO_writeWhite bright) (data_line c))
  | 2 =>
      let counter := u8 (counter c - 1) in
      if counter =? 0 then
        let w := animate_pixels 8 (anim c) (bright c) (data_line c) in
        let anim := u8 (anim c + 1) in
        let anim := if anim >? 47 then 0 else anim in
        let counter := u8 (ENC_get (encoder c)) in
        mkController (state c) (hue c) (bright c) anim counter (DDRB c)
                     (encoder c) w
      else
        mkController (state c) (hue c) (bright c) (anim c) counter (DDRB c)
                     (encoder c) (data_line c)
  | 3 =>
      let hue := u8 (ENC_get (encoder c)) in
      mkController (state c) hue (bright c) (anim c) (counter c) (DDRB c)
                   (encoder c)
                   (repeat_pixel 8 (NEO_writeHue hue (bright c)) (data_line c))
  | _ => c
  end.

(** The code after the inner loop, run once per press and release of the
    button: the state advances and its entry action is performed. *)
Definition main_button (c : Controller) : Controller :=
  let state := u8 (state c + 1) in
  let state := if state >? 3 then 0 else state in
  match state with
  | 0 =>
      mkController state (hue c) (bright c) (anim c) (counter c)
                   (NEO_off (DDRB c)) (encoder c) (data_line c)
  | 1 =>
      mkController state (hue c) (bright c) (anim c) (counter c)
                   (NEO_on (DDRB c))
                   (ENC_set 2 15 1 (bright c) 0 (encoder c)) (data_line c)
  | 3 =>
      mkController state (hue c) (bright c) (anim c) (counter c) (DDRB c)
                   (ENC_set 0 48 1 (hue c) 1 (encoder c)) (data_line c)
  | _ =>
      mkController state (hue c) (bright c) (anim c) (counter c) (DDRB c)
                   (encoder c) (data_line c)
  end.

(** What can happen to the controller: a pass of the polling loop, a pin
    change interrupt sampling a port value, a press and release of the
    button.  The interrupt is taken between two passes. *)
Inductive event : Type :=
| Poll
| PinChange (PINB : Z)
| Button.

Definition main_step (c : Controller) (ev : event) : Controller :=
  match ev with
  | Poll => main_poll c
  | PinChange p =>
      mkController (state c) (hue c) (bright c) (anim c) (counter c) (DDRB c)
                   (PCINT0_vect p (encoder c)) (data_line c)
  | Button => main_button c
  end.

Definition main_run (evs : list event) (c : Controller) : Controller :=
  fold_left main_step evs c.

(** No button press among the events. *)
Definition no_button (evs : list event) : Prop :=
  Forall (fun ev => ev <> Button) evs.

(** The supply rail of the pixels is on when [PIN_ENABLE] is an output. *)
Definition rail_on (c : Controller) : bool := Z.testbit (DDRB c) PIN_ENABLE.

(** The colour a call of [NEO_writeHue] or of [NEO_writeWhite] gives one
    pixel: what the pixel reads from the bits the call clocks out, if it
    clocks out a whole pixel. *)
Definition sent_pixel (px : wire -> wire) : option rgb :=
  match wire_pixels (px []) with
  | [p] => Some p
  | _ => None
  end.

Definition hueToColor (h b : Z) : option rgb := sent_pixel (NEO_writeHue h b).
Definition whiteAt (b : Z) : option rgb := sent_pixel (NEO_writeWhite b).

(** The bits of a byte, most significant first. *)
Definition msb_first (x : Z) : list bool :=
  map (Z.testbit x) [7; 6; 5; 4; 3; 2; 1; 0].

(** The values [step] and [nstep] that [NEO_writeHue] computes, as
    functions of the within-phase index [i] and of the brightness [b]. *)
Definition ramp_up (i b : Z) : Z :=
  Z.shiftr (sqr i) (Z.shiftr (15 - b) 1) + 1.
Definition ramp_down (i b : Z) : Z :=
  Z.shiftr (sqr (15 - i)) (Z.shiftr (15 - b) 1) + 1.

(** The arguments [NEO_writeHue] gives [NEO_writeColor] in phase [p], for
    the rising value [up] and the falling value [down]. *)
Definition phase_colour (p up down : Z) : rgb :=
  match p with
  | 0 => RGB down up 0
  | 1 => RGB 0 down up
  | _ => RGB up 0 down
  end.

(** How many of the three channels of a colour are zero. *)
Definition dark_channels (p : rgb) : nat :=
  length (filter (Z.eqb 0) [red p; green p; blue p]).

(** A function of the within-phase index that is linear (affine) on the
    sixteen indices of a phase.  An integer-valued function that is affine
    with real coefficients has integer coefficients, its value at 0 and its
    increment from 0 to 1. *)
Definition linear_on_phase (f : Z -> option Z) : Prop :=
  exists m c : Z, forall i, 0 <= i <= 15 -> f i = Some (m * i + c).

(** *** Vocabulary for the handler

    The levels the handler samples, and the parts of its update named one
    by one: whether it sees a step (both lines differ from the stored
    levels), the signed step, how often that is applied, the position
    after it, and the two comparisons against the bounds that follow
    ([if(ENC_count < ENC_countMin) ...], [if(ENC_count > ENC_countMax)
    ...]).  [PCINT0_vect_parts] below relates them to the handler. *)

Definition level_A (PINB : Z) : bool := lnot0 (pinRead PINB PIN_ENC_A).
Definition level_B (PINB : Z) : bool := lnot0 (pinRead PINB PIN_ENC_B).

Definition step_seen (PINB : Z) (e : Encoder) : bool :=
  negb (Bool.eqb (level_A PINB) (ENC_a0 e))
  && negb (Bool.eqb (level_B PINB) (ENC_b0 e)).

Definition step_delta (PINB : Z) (e : Encoder) : Z :=
  if Bool.eqb (level_A PINB) (level_B PINB)
  then - ENC_countStep e else ENC_countStep e.

Definition step_times (PINB : Z) (e : Encoder) : Z :=
  if Bool.eqb (Bool.eqb (level_A PINB) (level_B PINB)) (ENC_ab0 e)
  then 1 else 2.

Definition step_target (PINB : Z) (e : Encoder) : Z :=
  i16 (ENC_count e + step_times PINB e * step_delta PINB e).

Definition ENC_limit (e : Encoder) (c : Z) : Z :=
  let c := if c <? ENC_countMin e
           then (if ENC_loop e =? 0 then ENC_countMin e else ENC_countMax e)
           else c in
  if c >? ENC_countMax e
  then (if ENC_loop e =? 0 then ENC_countMax e else ENC_countMin e)
  else c.

(** The two directions of rotation: [true] is clockwise. *)
Definition turn (cw : bool) : levels -> levels :=
  if cw then cw_edge else ccw_edge.

Definition turn_sign (cw : bool) : Z := if cw then 1 else -1.

(** The stored levels are in step with a rotation in direction [cw] that
    starts at the levels [p]: the stored A level is the current one, and
    the stored B level and parity are such that the next two edges of A
    count two steps.  [b1] is the B level the handler will sample on the
    first of these edges. *)
Definition in_step (cw : bool) (p : levels) (e : Encoder) : bool :=
  let (A, B) := p in
  let b1 := if Bool.eqb (Bool.eqb A B) cw then negb B else B in
  Bool.eqb (ENC_a0 e) (negb A)
  && (if Bool.eqb (ENC_b0 e) b1
      then Bool.eqb (ENC_ab0 e) cw
      else Bool.eqb (ENC_ab0 e) (negb cw)).

(** Two states of the encoder with the same configuration. *)
Definition same_config (e e' : Encoder) : Prop :=
  ENC_loop e' = ENC_loop e
  /\ ENC_countMin e' = ENC_countMin e
  /\ ENC_countMax e' = ENC_countMax e
  /\ ENC_countStep e' = ENC_countStep e.

(** *** Whole detents

    The stored levels fit an encoder at rest at the levels [p]: a
    rotation may start in either direction. *)
Definition settled (p : levels) (e : Encoder) : bool :=
  in_step true p e && in_step false p e.

(** The encoder follows a series of whole detents, each in its own
    direction, from and back to the levels [p]. *)
Fixpoint drive_detents (ds : list bool) (p : levels) (e : Encoder)
  : Encoder :=
  match ds with
  | [] => e
  | cw :: ds' => drive_detents ds' p (drive p (rotation (turn cw) 4 p) e)
  end.

(** Detents clockwise less detents counter-clockwise. *)
Fixpoint net_detents (ds : list bool) : Z :=
  match ds with
  | [] => 0
  | cw :: ds' => turn_sign cw + net_detents ds'
  end.


(** *** What holds of the controller at all times

    The ranges of the variables of [main], the direction of the data pin,
    the rail being on in the states 1 to 3 and in those only, and the
    encoder being within the bounds that the last entry action set. *)
Definition main_inv (c : Controller) : Prop :=
  0 <= state c <= 3
  /\ 2 <= bright c <= 15
  /\ 0 <= hue c <= 48
  /\ 0 <= anim c <= 47
  /\ 1 <= counter c <= 15
  /\ Z.testbit (DDRB c) PIN_NEO = true
  /\ rail_on c = negb (state c =? 0)
  /\ ENC_in_bounds (encoder c)
  /\ (state c = 1 \/ state c = 2 ->
      ENC_countMin (encoder c) = 4 /\ ENC_countMax (encoder c) = 30)
  /\ (state c = 3 ->
      ENC_countMin (encoder c) = 0 /\ ENC_countMax (encoder c) = 96).

(* ------------------------------------------------------------------------- *)
(** * Properties of the pixel transmitter *)

Lemma u8_small (z : Z) : 0 <= z < 256 -> u8 z = z.
Proof. intros H. unfold u8. apply Z.mod_small. exact H. Qed.

Lemma u8_range (z : Z) : 0 <= u8 z < 256.
Proof. unfold u8. apply Z.mod_pos_bound. lia. Qed.

(** Doubling the register moves every bit one place up. *)
Lemma testbit_double_u8 (y k : Z) :
  0 < k <= 7 -> Z.testbit (u8 (y + y)) k = Z.testbit y (k - 1).
Proof.
  intros Hk. unfold u8. change 256 with (2 ^ 8).
  rewrite Z.mod_pow2_bits_low by lia.
  replace (y + y) with (2 * y) by lia.
  replace k with (Z.succ (k - 1)) at 1 by lia.
  apply Z.testbit_even_succ. lia.
Qed.

Lemma NEO_sendByte_msb_first (x : Z) (w : wire) :
  NEO_sendByte x w = w ++ msb_first x.
Proof.
  unfold NEO_sendByte, msb_first. cbn [NEO_sendByte_loop map].
  repeat rewrite <- app_assoc. cbn [app].
  repeat rewrite testbit_double_u8 by lia.
  reflexivity.
Qed.

Lemma NEO_writeColor_bits (r g b : Z) (w : wire) :
  NEO_writeColor r g b w = w ++ msb_first g ++ msb_first r ++ msb_first b.
Proof.
  unfold NEO_writeColor. rewrite !NEO_sendByte_msb_first.
  rewrite <- !app_assoc. reflexivity.
Qed.

(** A byte is read back from its eight bits. *)
Lemma byte_of_msb_first (x : Z) :
  is_u8 x ->
  byte_of_bits (Z.testbit x 7) (Z.testbit x 6) (Z.testbit x 5)
               (Z.testbit x 4) (Z.testbit x 3) (Z.testbit x 2)
               (Z.testbit x 1) (Z.testbit x 0) = x.
Proof.
  unfold is_u8, byte_of_bits. intros Hx.
  rewrite !Z.testbit_spec' by lia.
  change (2 ^ 7) with 128. change (2 ^ 6) with 64. change (2 ^ 5) with 32.
  change (2 ^ 4) with 16. change (2 ^ 3) with 8. change (2 ^ 2) with 4.
  change (2 ^ 1) with 2. change (2 ^ 0) with 1.
  Z.div_mod_to_equations. lia.
Qed.

Lemma wire_bytes_msb_first (x : Z) (w : wire) :
  is_u8 x -> wire_bytes (msb_first x ++ w) = x :: wire_bytes w.
Proof.
  intros Hx. unfold msb_first. cbn [map app wire_bytes].
  rewrite byte_of_msb_first by exact Hx. reflexivity.
Qed.

Lemma wire_pixels_writeColor (r g b : Z) :
  is_u8 r -> is_u8 g -> is_u8 b ->
  wire_pixels (NEO_writeColor r g b []) = [RGB r g b].
Proof.
  intros Hr Hg Hb. unfold wire_pixels.
  rewrite NEO_writeColor_bits. cbn [app].
  rewrite !wire_bytes_msb_first by assumption.
  replace (msb_first b) with (msb_first b ++ []) by apply app_nil_r.
  rewrite wire_bytes_msb_first by assumption. reflexivity.
Qed.

(** The accumulator of [sqr] after [n] more additions. *)
Lemma sqr_loop_spec (n : nat) (x r : Z) :
  is_u8 r -> sqr_loop n x r = u8 (r + Z.of_nat n * x).
Proof.
  revert r. induction n as [|n IH]; intros r Hr.
  - cbn [sqr_loop]. rewrite Z.mul_0_l, Z.add_0_r.
    symmetry. apply u8_small. exact Hr.
  - cbn [sqr_loop]. rewrite IH by apply u8_range.
    unfold u8. rewrite Zplus_mod_idemp_l. f_equal. lia.
Qed.

Lemma sqr_mod (x : Z) : 0 <= x -> sqr x = (x * x) mod 256.
Proof.
  intros Hx. unfold sqr. rewrite sqr_loop_spec by (unfold is_u8; lia).
  rewrite Z2Nat.id by exact Hx. reflexivity.
Qed.

Lemma sqr_small (x : Z) : 0 <= x <= 15 -> sqr x = x * x.
Proof.
  intros Hx. rewrite sqr_mod by lia. apply Z.mod_small. nia.
Qed.

Lemma shiftr_square_range (x k : Z) :
  0 <= x <= 15 -> 0 <= k -> 0 <= Z.shiftr (x * x) k <= 225.
Proof.
  intros Hx Hk. rewrite Z.shiftr_div_pow2 by exact Hk.
  assert (Hp : 0 < 2 ^ k) by (apply Z.pow_pos_nonneg; lia).
  split.
  - apply Z.div_pos; nia.
  - apply Z.le_trans with (x * x); [ | nia ].
    apply Z.div_le_upper_bound; nia.
Qed.

Lemma half_range (b : Z) : 0 <= b <= 15 -> 0 <= Z.shiftr (15 - b) 1 <= 7.
Proof.
  intros Hb. rewrite Z.shiftr_div_pow2 by lia. change (2 ^ 1) with 2.
  Z.div_mod_to_equations. lia.
Qed.

Lemma ramp_up_range (i b : Z) :
  0 <= i <= 15 -> 0 <= b <= 15 -> 1 <= ramp_up i b <= 226.
Proof.
  intros Hi Hb. unfold ramp_up. rewrite sqr_small by exact Hi.
  pose proof (half_range b Hb) as Hk.
  pose proof (shiftr_square_range i (Z.shiftr (15 - b) 1) Hi) as H. lia.
Qed.

Lemma ramp_down_range (i b : Z) :
  0 <= i <= 15 -> 0 <= b <= 15 -> 1 <= ramp_down i b <= 226.
Proof.
  intros Hi Hb. unfold ramp_down. rewrite sqr_small by lia.
  pose proof (half_range b Hb) as Hk.
  assert (Hi' : 0 <= 15 - i <= 15) by lia.
  pose proof (shiftr_square_range (15 - i) (Z.shiftr (15 - b) 1) Hi') as H.
  lia.
Qed.

(** The index and the phase of a hue are its low four bits and the rest. *)
Lemma hue_split (p i : Z) :
  0 <= i <= 15 ->
  Z.shiftr (16 * p + i) 4 = p /\ Z.land (16 * p + i) 15 = i.
Proof.
  intros Hi. split.
  - rewrite Z.shiftr_div_pow2 by lia. change (2 ^ 4) with 16.
    Z.div_mod_to_equations. lia.
  - change 15 with (Z.ones 4). rewrite Z.land_ones by lia.
    change (2 ^ 4) with 16. Z.div_mod_to_equations. lia.
Qed.

(** What [NEO_writeHue] hands to [NEO_writeColor] inside the wheel. *)
Lemma NEO_writeHue_in_phase (p i b : Z) (w : wire) :
  0 <= p <= 2 -> 0 <= i <= 15 -> 0 <= b <= 15 ->
  NEO_writeHue (16 * p + i) b w =
  let c := phase_colour p (ramp_up i b) (ramp_down i b) in
  NEO_writeColor (red c) (green c) (blue c) w.
Proof.
  intros Hp Hi Hb. unfold NEO_writeHue.
  destruct (hue_split p i Hi) as [-> ->].
  pose proof (half_range b Hb) as Hk.
  pose proof (ramp_up_range i b Hi Hb) as Hu.
  pose proof (ramp_down_range i b Hi Hb) as Hd.
  rewrite (u8_small (Z.shiftr (15 - b) 1)) by lia.
  rewrite (u8_small (15 - i)) by lia.
  fold (ramp_up i b). fold (ramp_down i b).
  rewrite (u8_small (ramp_up i b)) by lia.
  rewrite (u8_small (ramp_down i b)) by lia.
  assert (Hcases : p = 0 \/ p = 1 \/ p = 2) by lia.
  destruct Hcases as [-> | [-> | ->]]; reflexivity.
Qed.

Lemma hueToColor_in_phase (p i b : Z) :
  0 <= p <= 2 -> 0 <= i <= 15 -> 0 <= b <= 15 ->
  hueToColor (16 * p + i) b =
  Some (phase_colour p (ramp_up i b) (ramp_down i b)).
Proof.
  intros Hp Hi Hb. unfold hueToColor, sent_pixel.
  rewrite NEO_writeHue_in_phase by assumption. cbv zeta.
  pose proof (ramp_up_range i b Hi Hb) as Hu.
  pose proof (ramp_down_range i b Hi Hb) as Hd.
  rewrite wire_pixels_writeColor.
  - destruct (phase_colour p (ramp_up i b) (ramp_down i b)); reflexivity.
  - assert (Hcases : p = 0 \/ p = 1 \/ p = 2) by lia.
    destruct Hcases as [-> | [-> | ->]]; unfold is_u8; cbn; lia.
  - assert (Hcases : p = 0 \/ p = 1 \/ p = 2) by lia.
    destruct Hcases as [-> | [-> | ->]]; unfold is_u8; cbn; lia.
  - assert (Hcases : p = 0 \/ p = 1 \/ p = 2) by lia.
    destruct Hcases as [-> | [-> | ->]]; unfold is_u8; cbn; lia.
Qed.

Lemma repeat_pixel_writeColor (n : nat) (r g b : Z) (w : wire) :
  repeat_pixel n (NEO_writeColor r g b) w =
  w ++ concat (repeat (msb_first g ++ msb_first r ++ msb_first b) n).
Proof.
  revert w. induction n as [|n IH]; intros w.
  - cbn. symmetry. apply app_nil_r.
  - cbn [repeat_pixel repeat concat]. rewrite IH, NEO_writeColor_bits.
    rewrite <- !app_assoc. reflexivity.
Qed.

(** C4.  A pixel goes out as its green byte, then its red byte, then its
    blue byte, each most significant bit first, whatever was sent before;
    read back eight bits to a byte this is the byte sequence g, r, b; a
    frame is its pixels back to back; and the frame of eight pixels
    (r=255, g=0, b=0) is the byte stream 0x00, 0xFF, 0x00 eight times. *)
Theorem C4_wire_order_green_red_blue :
  (forall r g b w,
      NEO_writeColor r g b w
      = w ++ msb_first g ++ msb_first r ++ msb_first b)
  /\ (forall r g b,
         is_u8 r -> is_u8 g -> is_u8 b ->
         wire_bytes (NEO_writeColor r g b []) = [g; r; b])
  /\ (forall n r g b w,
         repeat_pixel n (NEO_writeColor r g b) w
         = w ++ concat (repeat (msb_first g ++ msb_first r ++ msb_first b) n))
  /\ wire_bytes (repeat_pixel 8 (NEO_writeColor 255 0 0) [])
     = concat (repeat [0; 255; 0] 8).
Proof.
  split; [ exact NEO_writeColor_bits | ].
  split.
  - intros r g b Hr Hg Hb. rewrite NEO_writeColor_bits. cbn [app].
    rewrite !wire_bytes_msb_first by assumption.
    replace (msb_first b) with (msb_first b ++ []) by apply app_nil_r.
    rewrite wire_bytes_msb_first by assumption. reflexivity.
  - split; [ intros; apply repeat_pixel_writeColor | ].
    vm_compute. reflexivity.
Qed.

Lemma C4_wire_order_witness :
  wire_bytes (NEO_writeColor 255 0 0 []) = [0; 255; 0].
Proof.
  apply (proj1 (proj2 C4_wire_order_green_red_blue) 255 0 0);
    unfold is_u8; lia.
Defined.

(** C5.  For brightness [b] in 0..15 and hue [h] in 0..47 the colour of
    [NEO_writeHue h b] has exactly one channel at 0, the one the phase
    [h / 16] selects (blue, red, green for phases 0, 1, 2), and the two
    others strictly positive, with the values
    [step = (sqr (h mod 16) >> ((15 - b) >> 1)) + 1] and
    [nstep = (sqr (15 - h mod 16) >> ((15 - b) >> 1)) + 1]. *)
Theorem C5_hue_one_channel_dark (h b : Z) :
  0 <= b <= 15 -> 0 <= h <= 47 ->
  let step := Z.shiftr (sqr (h mod 16)) (Z.shiftr (15 - b) 1) + 1 in
  let nstep := Z.shiftr (sqr (15 - h mod 16)) (Z.shiftr (15 - b) 1) + 1 in
  exists c,
    hueToColor h b = Some c
    /\ dark_channels c = 1%nat
    /\ 0 < step /\ 0 < nstep
    /\ c = match h / 16 with
           | 0 => RGB nstep step 0
           | 1 => RGB 0 nstep step
           | _ => RGB step 0 nstep
           end.
Proof.
  intros Hb Hh step nstep.
  assert (Hp : 0 <= h / 16 <= 2) by (Z.div_mod_to_equations; lia).
  assert (Hi : 0 <= h mod 16 <= 15) by (Z.div_mod_to_equations; lia).
  assert (Hsplit : h = 16 * (h / 16) + h mod 16)
    by (apply Z.div_mod; lia).
  pose proof (ramp_up_range (h mod 16) b Hi Hb) as Hu.
  pose proof (ramp_down_range (h mod 16) b Hi Hb) as Hd.
  fold (ramp_up (h mod 16) b) in step.
  fold (ramp_down (h mod 16) b) in nstep.
  exists (phase_colour (h / 16) step nstep).
  split.
  - rewrite Hsplit at 1. apply hueToColor_in_phase; assumption.
  - subst step nstep.
    assert (Hcases : h / 16 = 0 \/ h / 16 = 1 \/ h / 16 = 2) by lia.
    assert (Hu0 : (0 =? ramp_up (h mod 16) b) = false)
      by (apply Z.eqb_neq; lia).
    assert (Hd0 : (0 =? ramp_down (h mod 16) b) = false)
      by (apply Z.eqb_neq; lia).
    destruct Hcases as [-> | [-> | ->]];
      unfold dark_channels, phase_colour; cbn [red green blue filter];
      rewrite ?Hu0, ?Hd0; cbn; repeat split; lia.
Qed.

Lemma C5_hue_witness :
  exists c,
    hueToColor 20 9 = Some c
    /\ dark_channels c = 1%nat
    /\ 0 < Z.shiftr (sqr (20 mod 16)) (Z.shiftr (15 - 9) 1) + 1
    /\ 0 < Z.shiftr (sqr (15 - 20 mod 16)) (Z.shiftr (15 - 9) 1) + 1
    /\ c = RGB 0 16 3.
Proof.
  apply (C5_hue_one_channel_dark 20 9); lia.
Defined.

Lemma shiftr_square_mono (x y k : Z) :
  0 <= x <= y -> 0 <= k -> Z.shiftr (x * x) k <= Z.shiftr (y * y) k.
Proof.
  intros Hxy Hk. rewrite !Z.shiftr_div_pow2 by exact Hk.
  apply Z.div_le_mono; [ apply Z.pow_pos_nonneg; lia | nia ].
Qed.

(** C6, as the code has it.  Within each of the three phases, at every
    brightness in 0..15, the third channel is zero and the two others are
    the squared ramps [(sqr i >> k) + 1] and [(sqr (15 - i) >> k) + 1] of
    the within-phase index [i], with [k = (15 - b) >> 1]: the first never
    falls and the second never rises as the index grows, and both stay
    positive. *)
Theorem C6_phase_ramps_monotone (b p i j : Z) :
  0 <= b <= 15 -> 0 <= p <= 2 -> 0 <= i <= j -> j <= 15 ->
  hueToColor (16 * p + i) b
  = Some (phase_colour p (ramp_up i b) (ramp_down i b))
  /\ hueToColor (16 * p + j) b
     = Some (phase_colour p (ramp_up j b) (ramp_down j b))
  /\ ramp_up i b = Z.shiftr (i * i) (Z.shiftr (15 - b) 1) + 1
  /\ ramp_down i b = Z.shiftr ((15 - i) * (15 - i)) (Z.shiftr (15 - b) 1) + 1
  /\ 0 < ramp_up i b <= ramp_up j b
  /\ 0 < ramp_down j b <= ramp_down i b.
Proof.
  intros Hb Hp Hij Hj.
  pose proof (half_range b Hb) as Hk.
  split; [ apply hueToColor_in_phase; lia | ].
  split; [ apply hueToColor_in_phase; lia | ].
  unfold ramp_up, ramp_down.
  rewrite !sqr_small by lia.
  split; [ reflexivity | ].
  split; [ reflexivity | ].
  assert (Hi' : 0 <= i <= 15) by lia.
  assert (Hj' : 0 <= 15 - j <= 15) by lia.
  pose proof (shiftr_square_range i (Z.shiftr (15 - b) 1) Hi').
  pose proof (shiftr_square_range (15 - j) (Z.shiftr (15 - b) 1) Hj').
  pose proof (shiftr_square_mono i j (Z.shiftr (15 - b) 1)).
  pose proof (shiftr_square_mono (15 - j) (15 - i) (Z.shiftr (15 - b) 1)).
  lia.
Qed.

Lemma C6_phase_ramps_witness :
  hueToColor (16 * 1 + 3) 15 = Some (RGB 0 145 10)
  /\ hueToColor (16 * 1 + 4) 15 = Some (RGB 0 122 17)
  /\ ramp_up 3 15 = 10
  /\ ramp_down 3 15 = 145
  /\ 0 < ramp_up 3 15 <= ramp_up 4 15
  /\ 0 < ramp_down 4 15 <= ramp_down 3 15.
Proof.
  apply (C6_phase_ramps_monotone 15 1 3 4); lia.
Defined.

(** C6 as stated fails: at full brightness the green channel of the first
    phase takes the values 1, 2, 5 at the indices 0, 1, 2, which no linear
    function does. *)
Lemma C6_green_not_linear :
  ~ linear_on_phase
      (fun i => option_map green (hueToColor (16 * 0 + i) 15)).
Proof.
  intros [m [c H]].
  pose proof (H 0 ltac:(lia)) as H0.
  pose proof (H 1 ltac:(lia)) as H1.
  pose proof (H 2 ltac:(lia)) as H2.
  change (option_map green (hueToColor (16 * 0 + 0) 15))
    with (Some 1) in H0.
  change (option_map green (hueToColor (16 * 0 + 1) 15))
    with (Some 2) in H1.
  change (option_map green (hueToColor (16 * 0 + 2) 15))
    with (Some 5) in H2.
  injection H0 as H0. injection H1 as H1. injection H2 as H2.
  lia.
Qed.

(** C7.  For brightness in 0..15 the colour of [NEO_writeWhite] has three
    equal channels, each the square of the brightness, and that value never
    falls as the brightness grows. *)
Theorem C7_white_square_monotone (b b' : Z) :
  0 <= b <= b' -> b' <= 15 ->
  whiteAt b = Some (RGB (b * b) (b * b) (b * b))
  /\ whiteAt b' = Some (RGB (b' * b') (b' * b') (b' * b'))
  /\ sqr b = b * b
  /\ b * b <= b' * b'.
Proof.
  intros Hb Hb'.
  assert (Hw : forall x, 0 <= x <= 15 ->
                         whiteAt x = Some (RGB (x * x) (x * x) (x * x))).
  { intros x Hx. unfold whiteAt, sent_pixel, NEO_writeWhite.
    rewrite sqr_small by exact Hx.
    rewrite wire_pixels_writeColor by (unfold is_u8; nia).
    reflexivity. }
  split; [ apply Hw; lia | ].
  split; [ apply Hw; lia | ].
  split; [ apply sqr_small; lia | nia ].
Qed.

Lemma C7_white_witness :
  whiteAt 3 = Some (RGB 9 9 9)
  /\ whiteAt 10 = Some (RGB 100 100 100)
  /\ sqr 3 = 9
  /\ 9 <= 100.
Proof.
  apply (C7_white_square_monotone 3 10); lia.
Defined.

(* ------------------------------------------------------------------------- *)
(** * Properties of the rotary encoder *)

Lemma i16_small (z : Z) : is_i16 z -> i16 z = z.
Proof.
  unfold is_i16, i16. intros H. rewrite Z.mod_small by lia. lia.
Qed.

Lemma i16_range (z : Z) : is_i16 (i16 z).
Proof.
  unfold is_i16, i16.
  pose proof (Z.mod_pos_bound (z + 32768) 65536 ltac:(lia)). lia.
Qed.

Lemma i16_add_l (x y : Z) : i16 (i16 x + y) = i16 (x + y).
Proof.
  unfold i16. f_equal.
  replace ((x + 32768) mod 65536 - 32768 + y + 32768)
    with ((x + 32768) mod 65536 + y) by lia.
  rewrite Zplus_mod_idemp_l. f_equal. lia.
Qed.

Lemma i16_add_r (x y : Z) : i16 (x + i16 y) = i16 (x + y).
Proof. rewrite Z.add_comm, i16_add_l. f_equal. lia. Qed.

Lemma shiftl1_i16 (x : Z) :
  -16384 <= x < 16384 -> i16 (Z.shiftl x 1) = 2 * x.
Proof.
  intros Hx. rewrite Z.shiftl_mul_pow2 by lia. change (2 ^ 1) with 2.
  rewrite i16_small by (unfold is_i16; lia). lia.
Qed.

Lemma shiftr1_double (x : Z) : Z.shiftr (2 * x) 1 = x.
Proof.
  rewrite Z.shiftr_div_pow2 by lia. change (2 ^ 1) with 2.
  rewrite Z.mul_comm. apply Z.div_mul. lia.
Qed.

(** Applying a signed step once or twice, each time with wrap-around, is
    one wrap-around of the sum. *)
Lemma i16_twice (c d : Z) : i16 (i16 (c + d) + d) = i16 (c + 2 * d).
Proof. rewrite i16_add_l. f_equal. lia. Qed.

Lemma i16_once_neg (c s : Z) : i16 (c + i16 (- s)) = i16 (c + 1 * - s).
Proof. rewrite i16_add_r. f_equal. lia. Qed.

Lemma i16_twice_neg (c s : Z) :
  i16 (i16 (c + i16 (- s)) + i16 (- s)) = i16 (c + 2 * - s).
Proof.
  rewrite i16_add_l, i16_add_r.
  replace (c + i16 (- s) + - s) with (c + - s + i16 (- s)) by lia.
  rewrite i16_add_r. f_equal. lia.
Qed.

(** The handler, part by part. *)
Lemma PCINT0_vect_parts (PINB : Z) (e : Encoder) :
  PCINT0_vect PINB e =
  if negb (Bool.eqb (level_A PINB) (ENC_a0 e)) then
    if negb (Bool.eqb (level_B PINB) (ENC_b0 e)) then
      mkEncoder (level_A PINB) (level_B PINB)
                (Bool.eqb (level_A PINB) (level_B PINB)) (ENC_loop e)
                (ENC_limit e (step_target PINB e))
                (ENC_countMin e) (ENC_countMax e) (ENC_countStep e)
    else
      mkEncoder (level_A PINB) (ENC_b0 e) (ENC_ab0 e) (ENC_loop e)
                (ENC_count e) (ENC_countMin e) (ENC_countMax e)
                (ENC_countStep e)
  else e.
Proof.
  unfold PCINT0_vect. fold (level_A PINB). fold (level_B PINB).
  destruct (negb (Bool.eqb (level_A PINB) (ENC_a0 e))); [ | reflexivity ].
  destruct (negb (Bool.eqb (level_B PINB) (ENC_b0 e))); [ | reflexivity ].
  cbv zeta. f_equal.
  unfold ENC_limit, step_target, step_times, step_delta.
  destruct (Bool.eqb (level_A PINB) (level_B PINB));
    destruct (ENC_ab0 e); cbn [Bool.eqb negb].
  - rewrite i16_once_neg. reflexivity.
  - rewrite i16_twice_neg. reflexivity.
  - rewrite i16_twice. reflexivity.
  - rewrite Z.mul_1_l. reflexivity.
Qed.

(** The two comparisons against the bounds (the last two statements of
    the handler before it stores the parity), for a fixed encoder state and
    a value [c] of the position after the step. *)
Section Limit.

Variable e : Encoder.
Variable c : Z.

Lemma ENC_limit_inside :
  ENC_countMin e <= c <= ENC_countMax e -> ENC_limit e c = c.
Proof.
  intros H. unfold ENC_limit.
  destruct (Z.ltb_spec c (ENC_countMin e)); [ lia | ].
  rewrite Z.gtb_ltb.
  destruct (Z.ltb_spec (ENC_countMax e) c); [ lia | reflexivity ].
Qed.

Hypothesis ordered : ENC_countMin e <= ENC_countMax e.

Lemma ENC_limit_above :
  ENC_countMax e < c ->
  ENC_limit e c = if ENC_loop e =? 0 then ENC_countMax e else ENC_countMin e.
Proof.
  intros H. unfold ENC_limit.
  destruct (Z.ltb_spec c (ENC_countMin e)); [ lia | ].
  rewrite Z.gtb_ltb.
  destruct (Z.ltb_spec (ENC_countMax e) c); [ reflexivity | lia ].
Qed.

Lemma ENC_limit_below :
  c < ENC_countMin e ->
  ENC_limit e c = if ENC_loop e =? 0 then ENC_countMin e else ENC_countMax e.
Proof.
  intros H. unfold ENC_limit.
  destruct (Z.ltb_spec c (ENC_countMin e)); [ | lia ].
  rewrite Z.gtb_ltb.
  destruct (ENC_loop e =? 0).
  - destruct (Z.ltb_spec (ENC_countMax e) (ENC_countMin e));
      [ lia | reflexivity ].
  - rewrite Z.ltb_irrefl. reflexivity.
Qed.

Lemma ENC_limit_bounds :
  ENC_countMin e <= ENC_limit e c <= ENC_countMax e.
Proof.
  destruct (Z.lt_ge_cases c (ENC_countMin e)) as [Hlo | Hlo].
  - rewrite ENC_limit_below by assumption.
    destruct (ENC_loop e =? 0); lia.
  - destruct (Z.lt_ge_cases (ENC_countMax e) c) as [Hhi | Hhi].
    + rewrite ENC_limit_above by assumption.
      destruct (ENC_loop e =? 0); lia.
    + rewrite ENC_limit_inside by lia. lia.
Qed.

End Limit.

Lemma PCINT0_vect_count (PINB : Z) (e : Encoder) :
  ENC_count (PCINT0_vect PINB e) =
  if step_seen PINB e then ENC_limit e (step_target PINB e)
  else ENC_count e.
Proof.
  rewrite PCINT0_vect_parts. unfold step_seen.
  destruct (negb (Bool.eqb (level_A PINB) (ENC_a0 e)));
    destruct (negb (Bool.eqb (level_B PINB) (ENC_b0 e))); reflexivity.
Qed.

Lemma PCINT0_vect_config (PINB : Z) (e : Encoder) :
  same_config e (PCINT0_vect PINB e).
Proof.
  rewrite PCINT0_vect_parts. unfold same_config.
  destruct (negb (Bool.eqb (level_A PINB) (ENC_a0 e)));
    destruct (negb (Bool.eqb (level_B PINB) (ENC_b0 e)));
    repeat split; reflexivity.
Qed.

Lemma PCINT0_vect_in_bounds (PINB : Z) (e : Encoder) :
  ENC_in_bounds e -> ENC_in_bounds (PCINT0_vect PINB e).
Proof.
  unfold ENC_in_bounds. intros H.
  destruct (PCINT0_vect_config PINB e) as (_ & -> & -> & _).
  rewrite PCINT0_vect_count.
  destruct (step_seen PINB e); [ apply ENC_limit_bounds; lia | exact H ].
Qed.

Lemma ENC_edges_in_bounds (ps : list Z) (e : Encoder) :
  ENC_in_bounds e ->
  ENC_in_bounds (ENC_edges ps e) /\ same_config e (ENC_edges ps e).
Proof.
  revert e. induction ps as [|p ps IH]; intros e H.
  - cbn. unfold same_config. auto.
  - cbn [ENC_edges fold_left].
    destruct (IH (PCINT0_vect p e) (PCINT0_vect_in_bounds p e H))
      as [Hb (Hl & Hmin & Hmax & Hs)].
    split; [ exact Hb | ].
    destruct (PCINT0_vect_config p e) as (Hl' & Hmin' & Hmax' & Hs').
    unfold same_config, ENC_edges in *.
    repeat split; congruence.
Qed.

(** C1.  When the handler finds both lines changed, it moves the position
    by [-step] if the new levels are equal and by [+step] otherwise, twice
    if the parity of the new levels differs from the stored one, and then
    compares the result with the bounds; a result inside the bounds is the
    new position as it is.  When line A has not changed, or line A has and
    line B has not, the position stays. *)
Theorem C1_handler_delta (PINB : Z) (e : Encoder) :
  let a := level_A PINB in
  let b := level_B PINB in
  let delta := if Bool.eqb a b then - ENC_countStep e else ENC_countStep e in
  let moved := if Bool.eqb (Bool.eqb a b) (ENC_ab0 e)
               then ENC_count e + delta
               else ENC_count e + delta + delta in
  (a <> ENC_a0 e -> b <> ENC_b0 e ->
   ENC_count (PCINT0_vect PINB e) = ENC_limit e (i16 moved)
   /\ (is_i16 moved ->
       ENC_countMin e <= moved <= ENC_countMax e ->
       ENC_count (PCINT0_vect PINB e) = moved))
  /\ (a = ENC_a0 e \/ b = ENC_b0 e ->
      ENC_count (PCINT0_vect PINB e) = ENC_count e).
Proof.
  intros a b delta moved.
  assert (Htarget : step_target PINB e = i16 moved).
  { unfold step_target, step_times, step_delta, moved, delta.
    fold a. fold b.
    destruct (Bool.eqb (Bool.eqb a b) (ENC_ab0 e)); f_equal; lia. }
  rewrite PCINT0_vect_count. unfold step_seen. fold a. fold b.
  split.
  - intros Ha Hb.
    apply Bool.eqb_false_iff in Ha. apply Bool.eqb_false_iff in Hb.
    rewrite Ha, Hb. cbn [negb andb]. rewrite Htarget.
    split; [ reflexivity | ].
    intros H16 Hin. rewrite (i16_small moved H16).
    apply ENC_limit_inside. exact Hin.
  - intros [Ha | Hb].
    + apply Bool.eqb_true_iff in Ha. rewrite Ha. reflexivity.
    + apply Bool.eqb_true_iff in Hb. rewrite Hb.
      rewrite Bool.andb_false_r. reflexivity.
Qed.

Lemma C1_handler_witness :
  ENC_count (PCINT0_vect 4 (mkEncoder false false true 0 10 4 30 1)) = 9.
Proof.
  destruct (C1_handler_delta 4 (mkEncoder false false true 0 10 4 30 1))
    as [H _].
  destruct H as [_ H].
  - cbv. discriminate.
  - cbv. discriminate.
  - apply H.
    + cbv. split; [ discriminate | reflexivity ].
    + cbv. split; discriminate.
Defined.

Lemma ENC_set_in_bounds (rmin rmax rstep rvalue rloop : Z) (e0 : Encoder) :
  -16384 <= rmin -> rmin <= rvalue -> rvalue <= rmax -> rmax < 16384 ->
  let e := ENC_set rmin rmax rstep rvalue rloop e0 in
  ENC_in_bounds e
  /\ ENC_count e = 2 * rvalue
  /\ ENC_countMin e = 2 * rmin
  /\ ENC_countMax e = 2 * rmax.
Proof.
  intros H1 H2 H3 H4. unfold ENC_in_bounds, ENC_set.
  cbn [ENC_count ENC_countMin ENC_countMax].
  rewrite !shiftl1_i16 by lia. lia.
Qed.

(** C2.  The handler keeps the position within the bounds.  After
    [ENC_set] with [rmin <= rvalue <= rmax] and any number of earlier runs
    of the handler, the position is within the bounds before and after one
    more run, and [ENC_get] is within [rmin .. rmax].  A step that takes
    the position above the upper bound leaves [ENC_get] at [rmax] without
    looping and at [rmin] with looping; a step that takes it below the
    lower bound leaves [ENC_get] at [rmin] without looping and at [rmax]
    with looping. *)
Theorem C2_bounds_restored
        (rmin rmax rstep rvalue rloop : Z) (e0 : Encoder)
        (ps : list Z) (PINB : Z) :
  -16384 <= rmin -> rmin <= rvalue -> rvalue <= rmax -> rmax < 16384 ->
  let e := ENC_edges ps (ENC_set rmin rmax rstep rvalue rloop e0) in
  let e' := PCINT0_vect PINB e in
  (forall p x, ENC_in_bounds x -> ENC_in_bounds (PCINT0_vect p x))
  /\ ENC_in_bounds e
  /\ ENC_in_bounds e'
  /\ rmin <= ENC_get e' <= rmax
  /\ (step_seen PINB e = true -> ENC_countMax e < step_target PINB e ->
      ENC_get e' = if rloop =? 0 then rmax else rmin)
  /\ (step_seen PINB e = true -> step_target PINB e < ENC_countMin e ->
      ENC_get e' = if rloop =? 0 then rmin else rmax).
Proof.
  intros H1 H2 H3 H4 e e'.
  destruct (ENC_set_in_bounds rmin rmax rstep rvalue rloop e0 H1 H2 H3 H4)
    as (Hset & _ & Hmin0 & Hmax0).
  destruct (ENC_edges_in_bounds ps _ Hset) as [Hb (Hl & Hmin & Hmax & _)].
  fold e in Hb, Hl, Hmin, Hmax.
  cbn [ENC_set ENC_loop] in Hl.
  rewrite Hmin0 in Hmin. rewrite Hmax0 in Hmax.
  pose proof (PCINT0_vect_in_bounds PINB e Hb) as Hb'. fold e' in Hb'.
  destruct (PCINT0_vect_config PINB e) as (_ & Hmin' & Hmax' & _).
  fold e' in Hmin', Hmax'.
  assert (Hmm : ENC_countMin e <= ENC_countMax e)
    by (unfold ENC_in_bounds in Hb; lia).
  split; [ exact PCINT0_vect_in_bounds | ].
  split; [ exact Hb | ].
  split; [ exact Hb' | ].
  split.
  - unfold ENC_in_bounds in Hb'. unfold ENC_get.
    rewrite Z.shiftr_div_pow2 by lia. change (2 ^ 1) with 2.
    Z.div_mod_to_equations. lia.
  - split; intros Hseen Hpast; unfold ENC_get, e';
      rewrite PCINT0_vect_count, Hseen.
    + rewrite ENC_limit_above by assumption.
      rewrite Hl, Hmin, Hmax. destruct (rloop =? 0); apply shiftr1_double.
    + rewrite ENC_limit_below by assumption.
      rewrite Hl, Hmin, Hmax. destruct (rloop =? 0); apply shiftr1_double.
Qed.

Lemma C2_bounds_witness :
  ENC_get (PCINT0_vect 20 (ENC_set 2 15 1 15 0
                                   (mkEncoder false true false 0 0 0 0 0)))
  = 15.
Proof.
  destruct (C2_bounds_restored 2 15 1 15 0
              (mkEncoder false true false 0 0 0 0 0) [] 20
              ltac:(lia) ltac:(lia) ltac:(lia) ltac:(lia))
    as (_ & _ & _ & _ & H & _).
  apply H; reflexivity.
Defined.

Lemma level_pins (p : levels) :
  level_A (pins p) = negb (fst p) /\ level_B (pins p) = negb (snd p).
Proof. destruct p as [[|] [|]]; split; reflexivity. Qed.

Lemma turn_four (cw : bool) (p : levels) :
  turn cw (turn cw (turn cw (turn cw p))) = p.
Proof. destruct cw, p as [[|] [|]]; reflexivity. Qed.

(** The handler on the port value of given levels. *)
Lemma PCINT0_vect_pins (A B : bool) (e : Encoder) :
  PCINT0_vect (pins (A, B)) e =
  if negb (Bool.eqb (negb A) (ENC_a0 e)) then
    if negb (Bool.eqb (negb B) (ENC_b0 e)) then
      mkEncoder (negb A) (negb B) (Bool.eqb (negb A) (negb B)) (ENC_loop e)
        (ENC_limit e
           (i16 (ENC_count e
                 + (if Bool.eqb (Bool.eqb (negb A) (negb B)) (ENC_ab0 e)
                    then 1 else 2)
                   * (if Bool.eqb (negb A) (negb B)
                      then - ENC_countStep e else ENC_countStep e))))
        (ENC_countMin e) (ENC_countMax e) (ENC_countStep e)
    else
      mkEncoder (negb A) (ENC_b0 e) (ENC_ab0 e) (ENC_loop e)
                (ENC_count e) (ENC_countMin e) (ENC_countMax e)
                (ENC_countStep e)
  else e.
Proof.
  rewrite PCINT0_vect_parts.
  unfold step_target, step_times, step_delta.
  destruct (level_pins (A, B)) as [-> ->]. reflexivity.
Qed.

(** Runs the handler calls of a goal, innermost first, on known levels and
    with every step inside the bounds. *)
Ltac run_handler :=
  repeat
    (match goal with
     | |- context [PCINT0_vect (pins (?A, ?B))
                               (mkEncoder ?a ?b ?ab ?l ?c ?mn ?mx ?st)] =>
         rewrite (PCINT0_vect_pins A B (mkEncoder a b ab l c mn mx st))
     end;
     cbn [negb Bool.eqb ENC_a0 ENC_b0 ENC_ab0 ENC_loop ENC_count
          ENC_countMin ENC_countMax ENC_countStep];
     try (rewrite i16_small by (unfold is_i16; lia);
          rewrite ENC_limit_inside
            by (cbn [ENC_countMin ENC_countMax]; lia))).

(** One detent: four edges in one direction bring the levels back to
    where they were and count two steps, provided the encoder is in step
    and there is room for them. *)
Lemma detent (cw : bool) (p : levels) (e : Encoder) :
  in_step cw p e = true ->
  0 < ENC_countStep e ->
  is_i16 (ENC_countMin e) -> is_i16 (ENC_countMax e) ->
  ENC_countMin e <= ENC_count e <= ENC_countMax e ->
  ENC_countMin e <= ENC_count e + turn_sign cw * (2 * ENC_countStep e)
                 <= ENC_countMax e ->
  let e' := drive p (rotation (turn cw) 4 p) e in
  in_step cw p e' = true
  /\ same_config e e'
  /\ ENC_count e' = ENC_count e + turn_sign cw * (2 * ENC_countStep e).
Proof.
  intros Hstep Hpos Hmin Hmax Hc Hc'.
  destruct e as [a0 b0 ab0 l c mn mx st].
  cbn [ENC_countStep ENC_countMin ENC_countMax ENC_count] in *.
  unfold is_i16 in *.
  destruct cw, p as [[|] [|]], a0, b0, ab0;
    cbn in Hstep; try discriminate Hstep; clear Hstep;
    cbn [rotation turn cw_edge ccw_edge Bool.eqb negb drive fst snd
         turn_sign] in *;
    run_handler;
    (split; [ reflexivity | split; [ repeat split | lia ] ]).
Qed.


Lemma ENC_init_in_step (cw : bool) (p : levels)
      (rmin rmax rstep rvalue rloop : Z) (e0 : Encoder) :
  in_step cw p (ENC_set rmin rmax rstep rvalue rloop (ENC_init (pins p) e0))
  = true.
Proof. destruct cw, p as [[|] [|]]; reflexivity. Qed.




(* ------------------------------------------------------------------------- *)
(** * Properties of the main function *)

Lemma rail_on_NEO_on (d : Z) : Z.testbit (NEO_on d) PIN_ENABLE = true.
Proof.
  unfold NEO_on, pinOutput, PIN_ENABLE. rewrite Z.lor_spec.
  apply Bool.orb_true_r.
Qed.

Lemma rail_on_NEO_off (d : Z) : Z.testbit (NEO_off d) PIN_ENABLE = false.
Proof.
  unfold NEO_off, pinInput, PIN_ENABLE. rewrite Z.land_spec.
  apply Bool.andb_false_r.
Qed.

Lemma ENC_get_set (rmin rmax rstep rvalue rloop : Z) (e : Encoder) :
  is_u8 rvalue -> ENC_get (ENC_set rmin rmax rstep rvalue rloop e) = rvalue.
Proof.
  unfold is_u8. intros H. unfold ENC_get, ENC_set. cbn [ENC_count].
  rewrite shiftl1_i16 by lia. apply shiftr1_double.
Qed.

Lemma ENC_count_set (rmin rmax rstep rvalue rloop : Z) (e : Encoder) :
  is_u8 rvalue ->
  ENC_count (ENC_set rmin rmax rstep rvalue rloop e) = 2 * rvalue.
Proof.
  unfold is_u8. intros H. unfold ENC_set. cbn [ENC_count].
  apply shiftl1_i16. lia.
Qed.

(** C8.  A press and release of the button takes the state to
    [(state + 1) mod 4], so four of them bring any state, OFF included,
    back to itself, and leaves the variables and the data line alone.
    Entering state 0 switches the rail off and does nothing else;
    entering state 1 switches the rail on and sets the encoder to 2..15,
    step 1, no looping, at the current brightness; entering state 2
    touches neither the rail nor the encoder; entering state 3 sets the
    encoder to 0..48, step 1, looping, at the current hue, and leaves the
    rail.  What the encoder is set to is given variable by variable: the
    doubled bounds, the step, the loop flag and the doubled position, with
    the stored levels left as they were. *)
Theorem C8_button_advances (c : Controller) :
  0 <= state c <= 3 -> is_u8 (bright c) -> is_u8 (hue c) ->
  let c' := main_button c in
  state c' = (state c + 1) mod 4
  /\ state (main_button (main_button (main_button c'))) = state c
  /\ (hue c' = hue c /\ bright c' = bright c /\ anim c' = anim c
      /\ counter c' = counter c /\ data_line c' = data_line c)
  /\ (state c' = 0 ->
      DDRB c' = NEO_off (DDRB c) /\ rail_on c' = false
      /\ encoder c' = encoder c)
  /\ (state c' = 1 ->
      DDRB c' = NEO_on (DDRB c) /\ rail_on c' = true
      /\ encoder c' = ENC_set 2 15 1 (bright c) 0 (encoder c)
      /\ ENC_get (encoder c') = bright c
      /\ ENC_countMin (encoder c') = 2 * 2
      /\ ENC_countMax (encoder c') = 2 * 15
      /\ ENC_countStep (encoder c') = 1
      /\ ENC_loop (encoder c') = 0
      /\ ENC_count (encoder c') = 2 * bright c
      /\ ENC_a0 (encoder c') = ENC_a0 (encoder c)
      /\ ENC_b0 (encoder c') = ENC_b0 (encoder c)
      /\ ENC_ab0 (encoder c') = ENC_ab0 (encoder c))
  /\ (state c' = 2 -> DDRB c' = DDRB c /\ encoder c' = encoder c)
  /\ (state c' = 3 ->
      DDRB c' = DDRB c
      /\ encoder c' = ENC_set 0 48 1 (hue c) 1 (encoder c)
      /\ ENC_get (encoder c') = hue c
      /\ ENC_countMin (encoder c') = 2 * 0
      /\ ENC_countMax (encoder c') = 2 * 48
      /\ ENC_countStep (encoder c') = 1
      /\ ENC_loop (encoder c') = 1
      /\ ENC_count (encoder c') = 2 * hue c
      /\ ENC_a0 (encoder c') = ENC_a0 (encoder c)
      /\ ENC_b0 (encoder c') = ENC_b0 (encoder c)
      /\ ENC_ab0 (encoder c') = ENC_ab0 (encoder c)).
Proof.
  intros Hs Hb Hh.
  destruct c as [st h b a cn d en w]. cbn [state bright hue] in Hs, Hb, Hh.
  assert (Hcases : st = 0 \/ st = 1 \/ st = 2 \/ st = 3) by lia.
  destruct Hcases as [-> | [-> | [-> | ->]]]; cbv zeta;
    unfold main_button at 4; cbn [state u8 Z.add Z.modulo];
    cbn -[NEO_on NEO_off ENC_set ENC_get Z.testbit];
    (split; [ reflexivity | ]); (split; [ reflexivity | ]);
    (split; [ repeat split | ]);
    repeat split; intros; try discriminate; try reflexivity;
    unfold rail_on; cbn [DDRB];
    cbn [encoder];
    auto using rail_on_NEO_on, rail_on_NEO_off, ENC_get_set, ENC_count_set.
Qed.

Lemma C8_button_witness :
  state (main_button (main_setup 28)) = 1
  /\ rail_on (main_button (main_setup 28)) = true
  /\ ENC_get (encoder (main_button (main_setup 28))) = 5
  /\ ENC_countMin (encoder (main_button (main_setup 28))) = 4
  /\ ENC_countMax (encoder (main_button (main_setup 28))) = 30
  /\ ENC_countStep (encoder (main_button (main_setup 28))) = 1
  /\ ENC_loop (encoder (main_button (main_setup 28))) = 0.
Proof.
  destruct (C8_button_advances (main_setup 28))
    as (Hs & _ & _ & _ & H1 & _).
  - cbn. lia.
  - unfold is_u8. cbn. lia.
  - unfold is_u8. cbn. lia.
  - split; [ exact Hs | ].
    destruct (H1 Hs)
      as (_ & Hr & _ & Hg & Hmn & Hmx & Hst & Hl & _).
    repeat split; assumption.
Defined.

(** In state 2 a pass of the polling loop and a pin change interrupt keep
    the state, the hue, the brightness and the direction register. *)
Lemma animate_step (c : Controller) (ev : event) :
  state c = 2 -> ev <> Button ->
  let c' := main_step c ev in
  state c' = 2 /\ bright c' = bright c /\ hue c' = hue c
  /\ DDRB c' = DDRB c.
Proof.
  intros Hs Hev. destruct ev as [ | p | ]; [ | | congruence ].
  - cbn [main_step]. unfold main_poll. rewrite Hs.
    destruct (u8 (counter c - 1) =? 0); cbn; auto.
  - cbn. auto.
Qed.

Lemma main_button_state (c : Controller) :
  state (main_button c)
  = if u8 (state c + 1) >? 3 then 0 else u8 (state c + 1).
Proof.
  unfold main_button.
  destruct (if u8 (state c + 1) >? 3 then 0 else u8 (state c + 1))
    as [|q|q]; [ | destruct q as [[q|q|]|q|] | ]; reflexivity.
Qed.

(** The button leaves hue and brightness alone. *)
Lemma main_button_keeps (c : Controller) :
  bright (main_button c) = bright c /\ hue (main_button c) = hue c.
Proof.
  unfold main_button.
  destruct (if u8 (state c + 1) >? 3 then 0 else u8 (state c + 1))
    as [|q|q]; [ | destruct q as [[q|q|]|q|] | ]; cbn; auto.
Qed.

(** C9.  In state 2, passes of the polling loop and pin change interrupts,
    in any number and order, leave brightness and hue (and the state) as
    they are; a single pass changes at most the animation phase, the delay
    counter and what has gone out on the data line.  So the brightness and
    hue with which state 1 is left are still there when state 2 is left
    for state 3, and when state 1 is entered again two presses later, where
    the encoder is set to that brightness and the next pass reads it
    back. *)
Theorem C9_animate_keeps_brightness_and_hue
        (evs : list event) (c : Controller) :
  no_button evs ->
  (state c = 2 ->
   let c' := main_run evs c in
   state c' = 2 /\ bright c' = bright c /\ hue c' = hue c)
  /\ (state c = 2 ->
      exists anim' counter' line',
        main_poll c
        = mkController (state c) (hue c) (bright c) anim' counter'
                       (DDRB c) (encoder c) line')
  /\ (state c = 1 -> is_u8 (bright c) ->
      let c3 := main_button (main_run evs (main_button c)) in
      let c1 := main_button (main_button c3) in
      state c3 = 3 /\ bright c3 = bright c /\ hue c3 = hue c
      /\ state c1 = 1 /\ bright c1 = bright c /\ hue c1 = hue c
      /\ bright (main_poll c1) = bright c /\ hue (main_poll c1) = hue c).
Proof.
  intros Hevs.
  assert (Hrun : forall c0, state c0 = 2 ->
                   state (main_run evs c0) = 2
                   /\ bright (main_run evs c0) = bright c0
                   /\ hue (main_run evs c0) = hue c0).
  { induction Hevs as [|ev evs Hev Hevs IH]; intros c0 Hs.
    - cbn. auto.
    - cbn [main_run fold_left].
      destruct (animate_step c0 ev Hs Hev) as (Hs' & Hb' & Hh' & _).
      destruct (IH (main_step c0 ev) Hs') as (Hs'' & Hb'' & Hh'').
      unfold main_run in *. repeat split; congruence. }
  split; [ exact (Hrun c) | ].
  split.
  - intros Hs. unfold main_poll. rewrite Hs.
    destruct (u8 (counter c - 1) =? 0); rewrite <- Hs; eauto.
  - intros Hs Hb c3 c1.
    assert (Hs2 : state (main_button c) = 2)
      by (rewrite main_button_state, Hs; reflexivity).
    destruct (Hrun (main_button c) Hs2) as (Hr & Hrb & Hrh).
    destruct (main_button_keeps c) as [Hb1 Hh1].
    destruct (main_button_keeps (main_run evs (main_button c)))
      as [Hb3 Hh3].
    fold c3 in Hb3, Hh3.
    assert (Hs3 : state c3 = 3)
      by (unfold c3; rewrite main_button_state, Hr; reflexivity).
    assert (Hs0 : state (main_button c3) = 0)
      by (rewrite main_button_state, Hs3; reflexivity).
    destruct (main_button_keeps c3) as [Hb0 Hh0].
    destruct (main_button_keeps (main_button c3)) as [Hb1' Hh1'].
    fold c1 in Hb1', Hh1'.
    assert (Hc1 : c1 = mkController 1 (hue (main_button c3))
                         (bright (main_button c3)) (anim (main_button c3))
                         (counter (main_button c3))
                         (NEO_on (DDRB (main_button c3)))
                         (ENC_set 2 15 1 (bright (main_button c3)) 0
                                  (encoder (main_button c3)))
                         (data_line (main_button c3)))
      by (unfold c1; unfold main_button at 1; rewrite Hs0; reflexivity).
    assert (Hbc : bright (main_button c3) = bright c) by congruence.
    repeat split; try congruence.
    + rewrite Hc1. reflexivity.
    + rewrite Hc1. unfold main_poll. cbn [state bright encoder].
      rewrite ENC_get_set by (rewrite Hbc; exact Hb).
      rewrite u8_small by (rewrite Hbc; exact Hb). exact Hbc.
    + rewrite Hc1. unfold main_poll. cbn [state hue]. congruence.
Qed.

Lemma C9_animate_witness :
  bright (main_run [Poll; PinChange 4; Poll]
                   (main_button (main_button (main_setup 28)))) = 5
  /\ hue (main_run [Poll; PinChange 4; Poll]
                   (main_button (main_button (main_setup 28)))) = 0.
Proof.
  assert (Hnb : no_button [Poll; PinChange 4; Poll])
    by (repeat constructor; discriminate).
  destruct (C9_animate_keeps_brightness_and_hue
              [Poll; PinChange 4; Poll]
              (main_button (main_button (main_setup 28))) Hnb)
    as (H & _ & _).
  destruct (H eq_refl) as (_ & Hb & Hh).
  split; [ exact Hb | exact Hh ].
Defined.

(** Outside the wheel [NEO_writeHue] takes the default branch. *)
Lemma NEO_writeHue_outside (h b : Z) (w : wire) :
  48 <= h -> NEO_writeHue h b w = w.
Proof.
  intros Hh. unfold NEO_writeHue. cbv zeta.
  assert (Hp : 3 <= Z.shiftr h 4).
  { rewrite Z.shiftr_div_pow2 by lia. change (2 ^ 4) with 16.
    Z.div_mod_to_equations. lia. }
  destruct (Z.shiftr h 4) as [|q|q]; [ lia | | reflexivity ].
  destruct q as [q|[q|q|]|]; try reflexivity; lia.
Qed.

Lemma repeat_pixel_nothing (n : nat) (px : wire -> wire) (w : wire) :
  (forall w', px w' = w') -> repeat_pixel n px w = w.
Proof.
  intros Hpx. revert w. induction n as [|n IH]; intros w.
  - reflexivity.
  - cbn [repeat_pixel]. rewrite Hpx. apply IH.
Qed.

(** C10.  State 3 sets the encoder to 0..48 with looping, and [ENC_get]
    does return 48 there: after three presses from reset, one step down
    from 0 loops to the upper bound.  For every brightness, [NEO_writeHue]
    with a hue of 48 or more sends nothing; so a pass of the polling loop
    in state 3 that reads 48 from the encoder stores 48 as the hue and
    leaves the data line as it was. *)
Theorem C10_hue_48_sends_nothing :
  (let c := main_run [Button; Button; Button; PinChange 4]
                     (main_setup 28) in
   state c = 3
   /\ ENC_countMin (encoder c) = 2 * 0
   /\ ENC_countMax (encoder c) = 2 * 48
   /\ ENC_loop (encoder c) <> 0
   /\ ENC_get (encoder c) = 48)
  /\ (forall h b w, 48 <= h -> NEO_writeHue h b w = w)
  /\ (forall c,
         state c = 3 -> ENC_get (encoder c) = 48 ->
         hue (main_poll c) = 48
         /\ data_line (main_poll c) = data_line c).
Proof.
  split.
  - cbv zeta. repeat split; try reflexivity. discriminate.
  - split; [ exact NEO_writeHue_outside | ].
    intros c Hs Hg. unfold main_poll. rewrite Hs, Hg.
    cbn [hue data_line]. split; [ reflexivity | ].
    apply repeat_pixel_nothing. intros w'.
    apply NEO_writeHue_outside. cbn. lia.
Qed.

Lemma C10_hue_48_witness :
  hue (main_poll (main_run [Button; Button; Button; PinChange 4]
                           (main_setup 28))) = 48
  /\ data_line (main_poll (main_run [Button; Button; Button; PinChange 4]
                                    (main_setup 28)))
     = data_line (main_run [Button; Button; Button; PinChange 4]
                           (main_setup 28)).
Proof.
  apply (proj2 (proj2 C10_hue_48_sends_nothing)); reflexivity.
Defined.

(* ------------------------------------------------------------------------- *)
(** * The parts together *)

(** Past 15 the [uint8_t] square wraps around. *)
Example sqr_wraps : sqr 15 = 225 /\ sqr 16 = 0 /\ sqr 17 = 33.
Proof. repeat split; reflexivity. Qed.

(** From reset, one press enters state 1 with the rail on and the encoder
    at the initial brightness 5; five detents clockwise (the edges of line
    A, with line B as it is at each) bring it to 10, and the next pass of
    the polling loop sends eight pixels of the white of brightness 10. *)
Example white_at_ten :
  let turns := concat (repeat [PinChange 20; PinChange 12] 5) in
  let c := main_run (Button :: turns ++ [Poll]) (main_setup 28) in
  state c = 1
  /\ rail_on c = true
  /\ ENC_get (encoder c) = 10
  /\ bright c = 10
  /\ whiteAt 10 = Some (RGB 100 100 100)
  /\ wire_pixels (data_line c) = repeat (RGB 100 100 100) 8.
Proof. vm_compute. repeat split; reflexivity. Qed.

(** In state 2 the eight pixels of an animation step are six hue steps
    apart around the wheel. *)
Example animate_first_step :
  wire_pixels (animate_pixels 8 0 5 [])
  = [RGB 8 1 0; RGB 3 2 0; RGB 1 5 0; RGB 0 6 1;
     RGB 0 2 3; RGB 0 1 7; RGB 1 0 4; RGB 4 0 1].
Proof. vm_compute. reflexivity. Qed.

(* ------------------------------------------------------------------------- *)
(** * Further properties of the pixel transmitter *)

(** X1.  [sqr] is the square modulo 256: it is a byte for every byte, and
    it is the true square exactly up to 15. *)
Theorem sqr_is_square_mod_256 (x : Z) :
  is_u8 x ->
  sqr x = (x * x) mod 256
  /\ is_u8 (sqr x)
  /\ (sqr x = x * x <-> x <= 15).
Proof.
  unfold is_u8 at 1. intros Hx.
  assert (Hm : sqr x = (x * x) mod 256) by (apply sqr_mod; lia).
  pose proof (Z.mod_pos_bound (x * x) 256 ltac:(lia)) as Hr.
  split; [ exact Hm | ].
  split; [ unfold is_u8; rewrite Hm; exact Hr | ].
  split.
  - intros Heq. rewrite Hm in Heq.
    destruct (Z.le_gt_cases x 15) as [H | H]; [ exact H | nia ].
  - intros Hle. rewrite Hm. apply Z.mod_small. nia.
Qed.

Lemma sqr_is_square_witness :
  sqr 16 = (16 * 16) mod 256
  /\ is_u8 (sqr 16)
  /\ (sqr 16 = 16 * 16 <-> 16 <= 15).
Proof.
  apply (sqr_is_square_mod_256 16). unfold is_u8. lia.
Defined.

Lemma msb_first_length (x : Z) : length (msb_first x) = 8%nat.
Proof. reflexivity. Qed.

(** X2.  The sending functions only append to what is on the line: a byte
    is eight bits, a colour and a white pixel twenty-four, and a hue pixel
    twenty-four for a hue below 48 and none from 48 on. *)
Theorem NEO_calls_append (w : wire) :
  (forall x, exists bits,
        NEO_sendByte x w = w ++ bits /\ length bits = 8%nat)
  /\ (forall r g b, exists bits,
         NEO_writeColor r g b w = w ++ bits /\ length bits = 24%nat)
  /\ (forall b, exists bits,
         NEO_writeWhite b w = w ++ bits /\ length bits = 24%nat)
  /\ (forall h b, 0 <= h -> exists bits,
         NEO_writeHue h b w = w ++ bits
         /\ length bits = if h <? 48 then 24%nat else 0%nat).
Proof.
  assert (Hc : forall r g b, exists bits,
               NEO_writeColor r g b w = w ++ bits /\ length bits = 24%nat).
  { intros r g b.
    exists (msb_first g ++ msb_first r ++ msb_first b).
    split; [ apply NEO_writeColor_bits | reflexivity ]. }
  split.
  - intros x. exists (msb_first x).
    split; [ apply NEO_sendByte_msb_first | reflexivity ].
  - split; [ exact Hc | ].
    split; [ intros b; unfold NEO_writeWhite; apply Hc | ].
    intros h b Hh. destruct (Z.ltb_spec h 48) as [Hlt | Hge].
    + unfold NEO_writeHue. cbv zeta.
      assert (Hp : 0 <= Z.shiftr h 4 <= 2).
      { rewrite Z.shiftr_div_pow2 by lia. change (2 ^ 4) with 16.
        Z.div_mod_to_equations. lia. }
      assert (Hcases : Z.shiftr h 4 = 0 \/ Z.shiftr h 4 = 1
                       \/ Z.shiftr h 4 = 2) by lia.
      destruct Hcases as [-> | [-> | ->]]; apply Hc.
    + exists []. rewrite NEO_writeHue_outside by exact Hge.
      split; [ symmetry; apply app_nil_r | reflexivity ].
Qed.

Lemma NEO_calls_append_witness :
  exists bits,
    NEO_writeHue 47 5 [true] = [true] ++ bits /\ length bits = 24%nat.
Proof.
  apply (proj2 (proj2 (proj2 (NEO_calls_append [true]))) 47 5). lia.
Defined.

(** Reading bytes off an aligned prefix. *)
Lemma wire_bytes_app (n : nat) (w1 w2 : wire) :
  length w1 = (8 * n)%nat ->
  wire_bytes (w1 ++ w2) = wire_bytes w1 ++ wire_bytes w2.
Proof.
  revert w1. induction n as [|n IH]; intros w1 Hl.
  - destruct w1; [ reflexivity | discriminate Hl ].
  - replace (8 * S n)%nat with (8 + 8 * n)%nat in Hl by lia.
    do 8 (destruct w1 as [|? w1]; [ discriminate Hl | ]).
    cbn [app wire_bytes]. cbn [length] in Hl.
    rewrite IH by lia. reflexivity.
Qed.

Lemma wire_bytes_length (n : nat) (w : wire) :
  length w = (8 * n)%nat -> length (wire_bytes w) = n.
Proof.
  revert w. induction n as [|n IH]; intros w Hl.
  - destruct w; [ reflexivity | discriminate Hl ].
  - replace (8 * S n)%nat with (8 + 8 * n)%nat in Hl by lia.
    do 8 (destruct w as [|? w]; [ discriminate Hl | ]).
    cbn [wire_bytes length]. cbn [length] in Hl.
    rewrite IH by lia. reflexivity.
Qed.

Lemma bytes_pixels_app (n : nat) (bs1 bs2 : list Z) :
  length bs1 = (3 * n)%nat ->
  bytes_pixels (bs1 ++ bs2) = bytes_pixels bs1 ++ bytes_pixels bs2.
Proof.
  revert bs1. induction n as [|n IH]; intros bs1 Hl.
  - destruct bs1; [ reflexivity | discriminate Hl ].
  - replace (3 * S n)%nat with (3 + 3 * n)%nat in Hl by lia.
    do 3 (destruct bs1 as [|? bs1]; [ discriminate Hl | ]).
    cbn [app bytes_pixels]. cbn [length] in Hl.
    rewrite IH by lia. reflexivity.
Qed.

Lemma wire_pixels_app (n : nat) (w1 w2 : wire) :
  length w1 = (24 * n)%nat ->
  wire_pixels (w1 ++ w2) = wire_pixels w1 ++ wire_pixels w2.
Proof.
  intros Hl. unfold wire_pixels.
  rewrite (wire_bytes_app (3 * n)) by lia.
  apply (bytes_pixels_app n).
  apply wire_bytes_length. lia.
Qed.

(** X3.  Pixels sent back to back are read back one after the other: after
    any whole number of pixels on the line, one more [NEO_writeColor] adds
    its colour to the pixels read, and its three bytes, green first, to the
    bytes read. *)
Theorem NEO_writeColor_after_pixels (n : nat) (w : wire) (r g b : Z) :
  length w = (24 * n)%nat -> is_u8 r -> is_u8 g -> is_u8 b ->
  wire_bytes (NEO_writeColor r g b w) = wire_bytes w ++ [g; r; b]
  /\ wire_pixels (NEO_writeColor r g b w) = wire_pixels w ++ [RGB r g b]
  /\ length (wire_pixels (NEO_writeColor r g b w)) = S n.
Proof.
  intros Hl Hr Hg Hb.
  assert (Hone : wire_pixels (NEO_writeColor r g b []) = [RGB r g b])
    by (apply wire_pixels_writeColor; assumption).
  assert (Hlen : length (wire_pixels w) = n).
  { clear - Hl. revert w Hl. induction n as [|n IH]; intros w Hl.
    - destruct w; [ reflexivity | discriminate Hl ].
    - replace (24 * S n)%nat with (24 + 24 * n)%nat in Hl by lia.
      do 24 (destruct w as [|? w]; [ discriminate Hl | ]).
      cbn [length] in Hl. unfold wire_pixels in *.
      cbn [wire_bytes bytes_pixels length]. rewrite IH by lia.
      reflexivity. }
  rewrite NEO_writeColor_bits in *. cbn [app] in Hone.
  split.
  - rewrite (wire_bytes_app (3 * n)) by lia. f_equal.
    rewrite !wire_bytes_msb_first by assumption.
    replace (msb_first b) with (msb_first b ++ []) by apply app_nil_r.
    rewrite wire_bytes_msb_first by assumption. reflexivity.
  - rewrite (wire_pixels_app n) by exact Hl. rewrite Hone.
    split; [ reflexivity | ].
    rewrite length_app, Hlen. cbn. lia.
Qed.

Lemma NEO_writeColor_after_pixels_witness :
  wire_pixels (NEO_writeColor 1 2 3 (NEO_writeColor 255 0 7 []))
  = wire_pixels (NEO_writeColor 255 0 7 []) ++ [RGB 1 2 3].
Proof.
  apply (NEO_writeColor_after_pixels 1 (NEO_writeColor 255 0 7 []) 1 2 3);
    try reflexivity; unfold is_u8; lia.
Defined.

(** X4.  The hue function halves the brightness before it uses it, so an
    even brightness and the odd one above it give the same pixel: there
    are eight brightness levels for hues. *)
Theorem NEO_writeHue_brightness_pairs (h j : Z) (w : wire) :
  NEO_writeHue h (2 * j) w = NEO_writeHue h (2 * j + 1) w.
Proof.
  unfold NEO_writeHue.
  assert (Hs : Z.shiftr (15 - 2 * j) 1 = Z.shiftr (15 - (2 * j + 1)) 1).
  { rewrite !Z.shiftr_div_pow2 by lia. change (2 ^ 1) with 2.
    Z.div_mod_to_equations. lia. }
  rewrite Hs. reflexivity.
Qed.

Lemma shiftr_antitone (x k k' : Z) :
  0 <= x -> 0 <= k' <= k -> Z.shiftr x k <= Z.shiftr x k'.
Proof.
  intros Hx Hk. rewrite !Z.shiftr_div_pow2 by lia.
  apply Z.div_le_compat_l; [ exact Hx | ].
  split; [ apply Z.pow_pos_nonneg; lia | apply Z.pow_le_mono_r; lia ].
Qed.

Lemma half_antitone (b b' : Z) :
  b <= b' -> Z.shiftr (15 - b') 1 <= Z.shiftr (15 - b) 1.
Proof.
  intros H. rewrite !Z.shiftr_div_pow2 by lia. change (2 ^ 1) with 2.
  Z.div_mod_to_equations. lia.
Qed.

Lemma ramps_brightness_mono (i b b' : Z) :
  0 <= i <= 15 -> 0 <= b <= b' -> b' <= 15 ->
  ramp_up i b <= ramp_up i b' /\ ramp_down i b <= ramp_down i b'.
Proof.
  intros Hi Hb Hb'. unfold ramp_up, ramp_down.
  rewrite !sqr_small by lia.
  pose proof (half_range b' ltac:(lia)) as Hk'.
  pose proof (half_antitone b b' ltac:(lia)) as Hk.
  pose proof (shiftr_antitone (i * i) (Z.shiftr (15 - b) 1)
                (Z.shiftr (15 - b') 1) ltac:(nia) ltac:(lia)).
  pose proof (shiftr_antitone ((15 - i) * (15 - i)) (Z.shiftr (15 - b) 1)
                (Z.shiftr (15 - b') 1) ltac:(nia) ltac:(lia)).
  lia.
Qed.

(** X5.  Turning the brightness up never dims a channel of a hue: for a
    hue on the wheel and brightness [b <= b'] within 0..15, each channel of
    the colour at [b'] is at least that channel at [b]. *)
Theorem hue_brightness_monotone (h b b' : Z) :
  0 <= h <= 47 -> 0 <= b <= b' -> b' <= 15 ->
  exists c c',
    hueToColor h b = Some c /\ hueToColor h b' = Some c'
    /\ red c <= red c' /\ green c <= green c' /\ blue c <= blue c'.
Proof.
  intros Hh Hb Hb'.
  assert (Hp : 0 <= h / 16 <= 2) by (Z.div_mod_to_equations; lia).
  assert (Hi : 0 <= h mod 16 <= 15) by (Z.div_mod_to_equations; lia).
  assert (Hsplit : h = 16 * (h / 16) + h mod 16) by (apply Z.div_mod; lia).
  destruct (ramps_brightness_mono (h mod 16) b b' Hi Hb Hb') as [Hu Hd].
  exists (phase_colour (h / 16) (ramp_up (h mod 16) b)
                       (ramp_down (h mod 16) b)).
  exists (phase_colour (h / 16) (ramp_up (h mod 16) b')
                       (ramp_down (h mod 16) b')).
  split; [ rewrite Hsplit at 1; apply hueToColor_in_phase; lia | ].
  split; [ rewrite Hsplit at 1; apply hueToColor_in_phase; lia | ].
  assert (Hcases : h / 16 = 0 \/ h / 16 = 1 \/ h / 16 = 2) by lia.
  destruct Hcases as [-> | [-> | ->]]; cbn [phase_colour red green blue];
    lia.
Qed.

Lemma hue_brightness_monotone_witness :
  exists c c',
    hueToColor 20 3 = Some c /\ hueToColor 20 12 = Some c'
    /\ red c <= red c' /\ green c <= green c' /\ blue c <= blue c'.
Proof.
  apply (hue_brightness_monotone 20 3 12); lia.
Defined.

(* ------------------------------------------------------------------------- *)
(** * Further properties of the rotary encoder *)

(** The sampled level of a pin is the negation of its bit in the port. *)
Lemma lnot0_pinRead (PINB x : Z) :
  0 <= x -> lnot0 (pinRead PINB x) = negb (Z.testbit PINB x).
Proof.
  intros Hx. unfold lnot0, pinRead. rewrite Z.shiftl_1_l.
  destruct (Z.testbit PINB x) eqn:Hbit; cbn [negb].
  - apply Z.eqb_neq. intros H0.
    assert (Ht : Z.testbit (Z.land PINB (2 ^ x)) x = true).
    { rewrite Z.land_spec, Hbit, Z.pow2_bits_true by lia. reflexivity. }
    rewrite H0, Z.bits_0 in Ht. discriminate Ht.
  - apply Z.eqb_eq. apply Z.bits_inj'. intros n Hn.
    rewrite Z.land_spec, Z.bits_0, Z.pow2_bits_eqb by lia.
    destruct (Z.eqb_spec x n) as [-> | _].
    + rewrite Hbit. reflexivity.
    + apply Bool.andb_false_r.
Qed.

(** X6.  The handler always leaves the stored A level equal to the sampled
    one; when line A is as stored it changes nothing at all, whatever the
    other pins do (the button shares the interrupt vector); run a second
    time on the same port value it changes nothing more; and it looks at
    the two encoder pins of the port only. *)
Theorem PCINT0_vect_follows_A (PINB : Z) (e : Encoder) :
  ENC_a0 (PCINT0_vect PINB e) = level_A PINB
  /\ (level_A PINB = ENC_a0 e -> PCINT0_vect PINB e = e)
  /\ PCINT0_vect PINB (PCINT0_vect PINB e) = PCINT0_vect PINB e
  /\ (forall PINB',
         Z.testbit PINB' PIN_ENC_A = Z.testbit PINB PIN_ENC_A ->
         Z.testbit PINB' PIN_ENC_B = Z.testbit PINB PIN_ENC_B ->
         PCINT0_vect PINB' e = PCINT0_vect PINB e).
Proof.
  assert (Hsame : forall p x, level_A p = ENC_a0 x -> PCINT0_vect p x = x).
  { intros p x H. rewrite PCINT0_vect_parts, H, Bool.eqb_reflx.
    reflexivity. }
  assert (Ha : ENC_a0 (PCINT0_vect PINB e) = level_A PINB).
  { rewrite PCINT0_vect_parts.
    destruct (Bool.eqb (level_A PINB) (ENC_a0 e)) eqn:E; cbn [negb].
    - apply Bool.eqb_prop in E. symmetry. exact E.
    - destruct (negb (Bool.eqb (level_B PINB) (ENC_b0 e))); reflexivity. }
  split; [ exact Ha | ].
  split; [ apply Hsame | ].
  split; [ apply Hsame; symmetry; exact Ha | ].
  intros PINB' HA HB.
  assert (HlA : level_A PINB' = level_A PINB)
    by (unfold level_A; rewrite !lnot0_pinRead, HA by (cbv; discriminate);
        reflexivity).
  assert (HlB : level_B PINB' = level_B PINB)
    by (unfold level_B; rewrite !lnot0_pinRead, HB by (cbv; discriminate);
        reflexivity).
  rewrite !PCINT0_vect_parts.
  unfold step_target, step_times, step_delta. rewrite HlA, HlB.
  reflexivity.
Qed.

Lemma PCINT0_vect_follows_A_witness :
  PCINT0_vect 16 (mkEncoder true true true 0 10 4 30 1)
  = mkEncoder true true true 0 10 4 30 1.
Proof.
  apply (proj1 (proj2 (PCINT0_vect_follows_A
                         16 (mkEncoder true true true 0 10 4 30 1)))).
  reflexivity.
Defined.

(** X7.  Once an edge of line A has been handled, a further run of the
    handler with line B at the same level counts nothing: a bouncing A
    contact cannot run the position on while B rests. *)
Theorem PCINT0_vect_rejects_bounce (PINB PINB' : Z) (e : Encoder) :
  level_A PINB <> ENC_a0 e ->
  level_B PINB' = level_B PINB ->
  ENC_count (PCINT0_vect PINB' (PCINT0_vect PINB e))
  = ENC_count (PCINT0_vect PINB e)
  /\ ENC_b0 (PCINT0_vect PINB' (PCINT0_vect PINB e))
     = ENC_b0 (PCINT0_vect PINB e)
  /\ ENC_ab0 (PCINT0_vect PINB' (PCINT0_vect PINB e))
     = ENC_ab0 (PCINT0_vect PINB e).
Proof.
  intros Ha Hb.
  assert (Hb0 : ENC_b0 (PCINT0_vect PINB e) = level_B PINB).
  { rewrite PCINT0_vect_parts.
    apply Bool.eqb_false_iff in Ha. rewrite Ha. cbn [negb].
    destruct (Bool.eqb (level_B PINB) (ENC_b0 e)) eqn:E; cbn [negb ENC_b0].
    - apply Bool.eqb_prop in E. symmetry. exact E.
    - reflexivity. }
  rewrite (PCINT0_vect_parts PINB' (PCINT0_vect PINB e)).
  rewrite Hb0, Hb, Bool.eqb_reflx. cbn [negb].
  destruct (negb (Bool.eqb (level_A PINB')
                           (ENC_a0 (PCINT0_vect PINB e))));
    repeat split; try reflexivity; cbn [ENC_b0]; exact Hb0.
Qed.

Lemma PCINT0_vect_rejects_bounce_witness :
  ENC_count (PCINT0_vect 28 (PCINT0_vect 20
                               (mkEncoder false true false 0 10 4 30 1)))
  = ENC_count (PCINT0_vect 20 (mkEncoder false true false 0 10 4 30 1)).
Proof.
  apply (PCINT0_vect_rejects_bounce
           20 28 (mkEncoder false true false 0 10 4 30 1)).
  - cbv. discriminate.
  - reflexivity.
Defined.

(** X8.  [ENC_set] does not compare the value with the bounds: [ENC_get]
    returns a value within the 15-bit range as it was given, also outside
    [rmin .. rmax], and keeps returning it while the handler counts no
    step; the first step the handler counts brings it within the bounds. *)
Theorem ENC_set_value_unchecked
        (rmin rmax rstep rvalue rloop : Z) (e : Encoder) (PINB : Z) :
  -16384 <= rmin -> rmin <= rmax -> rmax < 16384 ->
  -16384 <= rvalue < 16384 ->
  let e1 := ENC_set rmin rmax rstep rvalue rloop e in
  ENC_get e1 = rvalue
  /\ (step_seen PINB e1 = false -> ENC_get (PCINT0_vect PINB e1) = rvalue)
  /\ (step_seen PINB e1 = true ->
      rmin <= ENC_get (PCINT0_vect PINB e1) <= rmax).
Proof.
  intros H1 H2 H3 Hv e1.
  assert (Hget : ENC_get e1 = rvalue).
  { unfold ENC_get, e1, ENC_set. cbn [ENC_count].
    rewrite shiftl1_i16 by lia. apply shiftr1_double. }
  assert (Hmin : ENC_countMin e1 = 2 * rmin)
    by (unfold e1, ENC_set; cbn [ENC_countMin]; apply shiftl1_i16; lia).
  assert (Hmax : ENC_countMax e1 = 2 * rmax)
    by (unfold e1, ENC_set; cbn [ENC_countMax]; apply shiftl1_i16; lia).
  split; [ exact Hget | ].
  split; intros Hseen; unfold ENC_get; rewrite PCINT0_vect_count, Hseen.
  - exact Hget.
  - pose proof (ENC_limit_bounds e1 (step_target PINB e1)
                  ltac:(rewrite Hmin, Hmax; lia)) as Hb.
    rewrite Hmin, Hmax in Hb.
    rewrite Z.shiftr_div_pow2 by lia. change (2 ^ 1) with 2.
    Z.div_mod_to_equations. lia.
Qed.

Lemma ENC_set_value_unchecked_witness :
  ENC_get (ENC_set 2 15 1 50 0 (mkEncoder false true false 0 0 0 0 0)) = 50
  /\ 2 <= ENC_get (PCINT0_vect 20
                     (ENC_set 2 15 1 50 0
                              (mkEncoder false true false 0 0 0 0 0)))
     <= 15.
Proof.
  destruct (ENC_set_value_unchecked
              2 15 1 50 0 (mkEncoder false true false 0 0 0 0 0) 20
              ltac:(lia) ltac:(lia) ltac:(lia) ltac:(lia))
    as (Hg & _ & Hs).
  split; [ exact Hg | apply Hs; reflexivity ].
Defined.

(** A detent leaves the encoder at rest fit for either direction. *)
Lemma detent_settled (cw : bool) (p : levels) (e : Encoder) :
  settled p e = true ->
  0 < ENC_countStep e ->
  is_i16 (ENC_countMin e) -> is_i16 (ENC_countMax e) ->
  ENC_countMin e <= ENC_count e <= ENC_countMax e ->
  ENC_countMin e <= ENC_count e + turn_sign cw * (2 * ENC_countStep e)
                 <= ENC_countMax e ->
  settled p (drive p (rotation (turn cw) 4 p) e) = true.
Proof.
  intros Hset Hpos Hmin Hmax Hc Hc'.
  destruct e as [a0 b0 ab0 l c mn mx st].
  cbn [ENC_countStep ENC_countMin ENC_countMax ENC_count] in *.
  unfold is_i16 in *.
  destruct cw, p as [[|] [|]], a0, b0, ab0;
    cbn in Hset; try discriminate Hset; clear Hset;
    cbn [rotation turn cw_edge ccw_edge Bool.eqb negb drive fst snd
         turn_sign] in *;
    run_handler; reflexivity.
Qed.

Lemma settled_in_step (cw : bool) (p : levels) (e : Encoder) :
  settled p e = true -> in_step cw p e = true.
Proof.
  unfold settled. intros H. apply Bool.andb_true_iff in H.
  destruct cw; tauto.
Qed.

Lemma detents_any_order (p : levels) (ds : list bool) (e : Encoder) :
  settled p e = true ->
  0 < ENC_countStep e ->
  is_i16 (ENC_countMin e) -> is_i16 (ENC_countMax e) ->
  ENC_countMin e
  <= ENC_count e - 2 * (Z.of_nat (length ds) * ENC_countStep e) ->
  ENC_count e + 2 * (Z.of_nat (length ds) * ENC_countStep e)
  <= ENC_countMax e ->
  ENC_count (drive_detents ds p e)
  = ENC_count e + net_detents ds * (2 * ENC_countStep e).
Proof.
  revert e. induction ds as [|cw ds IH]; intros e Hset Hpos Hmin Hmax Hlo Hhi.
  - cbn. lia.
  - cbn [drive_detents net_detents]. cbn [length] in Hlo, Hhi.
    rewrite Nat2Z.inj_succ in Hlo, Hhi.
    assert (Hk : 0 <= Z.of_nat (length ds) * ENC_countStep e) by nia.
    assert (Hc : ENC_countMin e <= ENC_count e <= ENC_countMax e) by lia.
    assert (Hroom : ENC_countMin e
                    <= ENC_count e + turn_sign cw * (2 * ENC_countStep e)
                    <= ENC_countMax e)
      by (destruct cw; unfold turn_sign; lia).
    pose proof (detent_settled cw p e Hset Hpos Hmin Hmax Hc Hroom)
      as Hset'.
    destruct (detent cw p e (settled_in_step cw p e Hset)
                     Hpos Hmin Hmax Hc Hroom)
      as (_ & (_ & Hmn & Hmx & Hst) & Hcount).
    rewrite IH; rewrite ?Hmn, ?Hmx, ?Hst, ?Hcount; try assumption.
    + lia.
    + destruct cw; unfold turn_sign; lia.
    + destruct cw; unfold turn_sign; lia.
Qed.

(** X9.  From freshly sampled levels and a freshly set position, whole
    detents in any order of directions count their net number: with room
    within the bounds for all of them in either direction, [ENC_get] ends
    at the initial value plus the step times the detents clockwise less
    the detents counter-clockwise. *)
Theorem detents_count_net
        (p : levels) (ds : list bool) (rmin rmax rstep initial rloop : Z)
        (e0 : Encoder) :
  0 < rstep ->
  -16384 <= rmin -> rmax < 16384 ->
  rmin <= initial - Z.of_nat (length ds) * rstep ->
  initial + Z.of_nat (length ds) * rstep <= rmax ->
  ENC_get (drive_detents ds p
             (ENC_set rmin rmax rstep initial rloop (ENC_init (pins p) e0)))
  = initial + net_detents ds * rstep.
Proof.
  intros Hpos Hlo Hhi Hd Hu.
  set (e := ENC_set rmin rmax rstep initial rloop (ENC_init (pins p) e0)).
  assert (Hk : 0 <= Z.of_nat (length ds) * rstep) by nia.
  destruct (ENC_set_in_bounds rmin rmax rstep initial rloop
              (ENC_init (pins p) e0)
              ltac:(lia) ltac:(lia) ltac:(lia) ltac:(lia))
    as (_ & Hc & Hmn & Hmx).
  fold e in Hc, Hmn, Hmx.
  assert (Hst : ENC_countStep e = rstep) by reflexivity.
  assert (Hset : settled p e = true).
  { unfold settled, e. rewrite !ENC_init_in_step. reflexivity. }
  unfold ENC_get. rewrite detents_any_order; rewrite ?Hc, ?Hmn, ?Hmx, ?Hst;
    try assumption; try (unfold is_i16; lia); try lia.
  replace (2 * initial + net_detents ds * (2 * rstep))
    with (2 * (initial + net_detents ds * rstep)) by lia.
  apply shiftr1_double.
Qed.

Lemma detents_count_net_witness :
  ENC_get (drive_detents [true; true; false; true] (true, true)
             (ENC_set 2 15 1 8 0 (ENC_init (pins (true, true)) ENC_reset)))
  = 10.
Proof.
  apply (detents_count_net (true, true) [true; true; false; true]
                           2 15 1 8 0 ENC_reset); cbn [length]; lia.
Defined.

(** Without looping the two comparisons clamp. *)
Lemma ENC_limit_clamp (e : Encoder) (c : Z) :
  ENC_loop e = 0 -> ENC_countMin e <= ENC_countMax e ->
  ENC_limit e c = Z.max (ENC_countMin e) (Z.min c (ENC_countMax e)).
Proof.
  intros Hl Hmm.
  destruct (Z.lt_ge_cases c (ENC_countMin e)) as [Hlo | Hlo].
  - rewrite ENC_limit_below, Hl by assumption. cbn. lia.
  - destruct (Z.lt_ge_cases (ENC_countMax e) c) as [Hhi | Hhi].
    + rewrite ENC_limit_above, Hl by assumption. cbn. lia.
    + rewrite ENC_limit_inside by lia. lia.
Qed.

(** Runs the handler calls of a goal, innermost first, on known levels,
    without looping. *)
Ltac run_handler_clamped :=
  repeat
    (match goal with
     | |- context [PCINT0_vect (pins (?A, ?B))
                               (mkEncoder ?a ?b ?ab ?l ?c ?mn ?mx ?st)] =>
         rewrite (PCINT0_vect_pins A B (mkEncoder a b ab l c mn mx st))
     end;
     cbn [negb Bool.eqb ENC_a0 ENC_b0 ENC_ab0 ENC_loop ENC_count
          ENC_countMin ENC_countMax ENC_countStep];
     try (rewrite i16_small by (unfold is_i16; lia);
          rewrite ENC_limit_clamp
            by (cbn [ENC_loop ENC_countMin ENC_countMax];
                first [ reflexivity | lia ]);
          cbn [ENC_countMin ENC_countMax])).

(** One detent without looping: two steps, clamped at the bounds. *)
Lemma detent_clamped (cw : bool) (p : levels) (e : Encoder) :
  in_step cw p e = true ->
  ENC_loop e = 0 ->
  0 < ENC_countStep e ->
  -32768 <= ENC_countMin e - 2 * ENC_countStep e ->
  ENC_countMax e + 2 * ENC_countStep e < 32768 ->
  ENC_countMin e <= ENC_count e <= ENC_countMax e ->
  let e' := drive p (rotation (turn cw) 4 p) e in
  in_step cw p e' = true
  /\ same_config e e'
  /\ ENC_count e'
     = Z.max (ENC_countMin e)
             (Z.min (ENC_count e + turn_sign cw * (2 * ENC_countStep e))
                    (ENC_countMax e)).
Proof.
  intros Hstep Hloop Hpos Hlo Hhi Hc.
  destruct e as [a0 b0 ab0 l c mn mx st].
  cbn [ENC_countStep ENC_countMin ENC_countMax ENC_count ENC_loop] in *.
  subst l.
  destruct cw, p as [[|] [|]], a0, b0, ab0;
    cbn in Hstep; try discriminate Hstep; clear Hstep;
    cbn [rotation turn cw_edge ccw_edge Bool.eqb negb drive fst snd
         turn_sign] in *;
    run_handler_clamped;
    (split; [ reflexivity | split; [ repeat split | lia ] ]).
Qed.

Lemma detents_clamped (cw : bool) (p : levels) (k : nat) (e : Encoder) :
  in_step cw p e = true ->
  ENC_loop e = 0 ->
  0 < ENC_countStep e ->
  -32768 <= ENC_countMin e - 2 * ENC_countStep e ->
  ENC_countMax e + 2 * ENC_countStep e < 32768 ->
  ENC_countMin e <= ENC_count e <= ENC_countMax e ->
  ENC_count (drive p (rotation (turn cw) (k * 4) p) e)
  = Z.max (ENC_countMin e)
          (Z.min (ENC_count e
                  + turn_sign cw * (2 * (Z.of_nat k * ENC_countStep e)))
                 (ENC_countMax e)).
Proof.
  revert e. induction k as [|k IH]; intros e Hstep Hloop Hpos Hlo Hhi Hc.
  - cbn [Nat.mul rotation drive Z.of_nat]. lia.
  - change (drive p (rotation (turn cw) (S k * 4) p) e)
      with (drive (turn cw (turn cw (turn cw (turn cw p))))
                  (rotation (turn cw) (k * 4)
                            (turn cw (turn cw (turn cw (turn cw p)))))
                  (drive p (rotation (turn cw) 4 p) e)).
    rewrite turn_four.
    destruct (detent_clamped cw p e Hstep Hloop Hpos Hlo Hhi Hc)
      as (Hstep' & (Hl & Hmn & Hmx & Hst) & Hcount).
    assert (Hk : 0 <= Z.of_nat k * ENC_countStep e) by nia.
    rewrite IH; rewrite ?Hl, ?Hmn, ?Hmx, ?Hst, ?Hcount; try assumption.
    + rewrite Nat2Z.inj_succ.
      replace (Z.succ (Z.of_nat k) * ENC_countStep e)
        with (Z.of_nat k * ENC_countStep e + ENC_countStep e) by lia.
      destruct cw; unfold turn_sign; lia.
    + destruct cw; unfold turn_sign; lia.
Qed.

(** X10.  Without looping the position saturates: from freshly sampled
    levels and a freshly set position, [k] detents clockwise leave
    [ENC_get] at the smaller of the initial value plus [k] steps and the
    upper bound, and [k] detents counter-clockwise at the larger of the
    initial value less [k] steps and the lower bound. *)
Theorem detents_saturate
        (p : levels) (k : nat) (rmin rmax rstep initial : Z)
        (e0 : Encoder) :
  0 < rstep ->
  -16384 <= rmin - rstep -> rmin <= initial <= rmax ->
  rmax + rstep < 16384 ->
  let e := ENC_set rmin rmax rstep initial 0 (ENC_init (pins p) e0) in
  ENC_get (drive p (rotation cw_edge (4 * k) p) e)
  = Z.min (initial + Z.of_nat k * rstep) rmax
  /\ ENC_get (drive p (rotation ccw_edge (4 * k) p) e)
     = Z.max (initial - Z.of_nat k * rstep) rmin.
Proof.
  intros Hpos Hlo Hin Hhi e.
  destruct (ENC_set_in_bounds rmin rmax rstep initial 0
              (ENC_init (pins p) e0)
              ltac:(lia) ltac:(lia) ltac:(lia) ltac:(lia))
    as (Hb & Hc & Hmn & Hmx).
  fold e in Hb, Hc, Hmn, Hmx. unfold ENC_in_bounds in Hb.
  assert (Hst : ENC_countStep e = rstep) by reflexivity.
  assert (Hk : 0 <= Z.of_nat k * rstep) by nia.
  assert (Hrun : forall cw,
             ENC_count (drive p (rotation (turn cw) (4 * k) p) e)
             = Z.max (2 * rmin)
                     (Z.min (2 * initial
                             + turn_sign cw * (2 * (Z.of_nat k * rstep)))
                            (2 * rmax))).
  { intros cw. rewrite Nat.mul_comm, detents_clamped;
      rewrite ?Hc, ?Hmn, ?Hmx, ?Hst; try lia.
    - apply ENC_init_in_step.
    - reflexivity. }
  unfold ENC_get. split.
  - change cw_edge with (turn true). rewrite Hrun. unfold turn_sign.
    replace (Z.max (2 * rmin)
                   (Z.min (2 * initial + 1 * (2 * (Z.of_nat k * rstep)))
                          (2 * rmax)))
      with (2 * Z.min (initial + Z.of_nat k * rstep) rmax) by lia.
    apply shiftr1_double.
  - change ccw_edge with (turn false). rewrite Hrun. unfold turn_sign.
    replace (Z.max (2 * rmin)
                   (Z.min (2 * initial + -1 * (2 * (Z.of_nat k * rstep)))
                          (2 * rmax)))
      with (2 * Z.max (initial - Z.of_nat k * rstep) rmin) by lia.
    apply shiftr1_double.
Qed.

Lemma detents_saturate_witness :
  ENC_get (drive (true, true) (rotation cw_edge 80 (true, true))
                 (ENC_set 2 15 1 5 0 (ENC_init (pins (true, true)) ENC_reset)))
  = 15
  /\ ENC_get (drive (true, true) (rotation ccw_edge 80 (true, true))
                    (ENC_set 2 15 1 5 0
                             (ENC_init (pins (true, true)) ENC_reset)))
     = 2.
Proof.
  apply (detents_saturate (true, true) 20 2 15 1 5 ENC_reset); lia.
Defined.

(* ------------------------------------------------------------------------- *)
(** * Further properties of the main function *)

Lemma pinOutput_bits (d x k : Z) :
  0 <= x -> 0 <= k ->
  Z.testbit (pinOutput d x) k = Z.testbit d k || (k =? x).
Proof.
  intros Hx Hk. unfold pinOutput.
  rewrite Z.lor_spec, Z.shiftl_1_l, Z.pow2_bits_eqb by lia.
  rewrite (Z.eqb_sym x k). reflexivity.
Qed.

Lemma pinInput_bits (d x k : Z) :
  0 <= x -> 0 <= k ->
  Z.testbit (pinInput d x) k = Z.testbit d k && negb (k =? x).
Proof.
  intros Hx Hk. unfold pinInput.
  rewrite Z.land_spec, Z.lnot_spec, Z.shiftl_1_l, Z.pow2_bits_eqb by lia.
  rewrite (Z.eqb_sym x k). reflexivity.
Qed.

Lemma u8_bits (z : Z) :
  is_u8 z <-> 0 <= z /\ forall k, 8 <= k -> Z.testbit z k = false.
Proof.
  unfold is_u8. split.
  - intros Hz. split; [ lia | ]. intros k Hk.
    rewrite <- (Z.mod_small z (2 ^ 8)) by (change (2 ^ 8) with 256; lia).
    apply Z.mod_pow2_bits_high. lia.
  - intros [Hz Hbits].
    assert (Hm : z mod 2 ^ 8 = z).
    { apply Z.bits_inj'. intros n Hn.
      destruct (Z.lt_ge_cases n 8) as [Hlt | Hge].
      - apply Z.mod_pow2_bits_low. exact Hlt.
      - rewrite Z.mod_pow2_bits_high by lia. symmetry. apply Hbits. lia. }
    pose proof (Z.mod_pos_bound z (2 ^ 8) ltac:(lia)) as Hb.
    rewrite Hm in Hb. change (2 ^ 8) with 256 in Hb. lia.
Qed.

(** X11.  The direction macros act on one bit of the register: making pin
    [x] an output sets bit [x], making it an input clears it, every other
    bit stays, the register stays a byte, and the later of two calls for
    the same pin wins. *)
Theorem pin_direction_one_bit (d x : Z) :
  is_u8 d -> 0 <= x < 8 ->
  (forall k, 0 <= k ->
      Z.testbit (pinOutput d x) k = (if k =? x then true else Z.testbit d k)
      /\ Z.testbit (pinInput d x) k
         = (if k =? x then false else Z.testbit d k))
  /\ is_u8 (pinOutput d x) /\ is_u8 (pinInput d x)
  /\ pinInput (pinOutput d x) x = pinInput d x
  /\ pinOutput (pinInput d x) x = pinOutput d x.
Proof.
  intros Hd Hx.
  assert (Hbits : forall k, 0 <= k ->
            Z.testbit (pinOutput d x) k
            = (if k =? x then true else Z.testbit d k)
            /\ Z.testbit (pinInput d x) k
               = (if k =? x then false else Z.testbit d k)).
  { intros k Hk. rewrite pinOutput_bits, pinInput_bits by lia.
    destruct (k =? x), (Z.testbit d k); split; reflexivity. }
  apply u8_bits in Hd. destruct Hd as [Hd0 Hd8].
  split; [ exact Hbits | ].
  split.
  { apply u8_bits. split.
    - unfold pinOutput. apply Z.lor_nonneg. split; [ exact Hd0 | ].
      apply Z.shiftl_nonneg. lia.
    - intros k Hk. destruct (Hbits k ltac:(lia)) as [-> _].
      destruct (Z.eqb_spec k x); [ lia | apply Hd8; exact Hk ]. }
  split.
  { apply u8_bits. split.
    - unfold pinInput. apply Z.land_nonneg. left. exact Hd0.
    - intros k Hk. destruct (Hbits k ltac:(lia)) as [_ ->].
      destruct (Z.eqb_spec k x); [ reflexivity | apply Hd8; exact Hk ]. }
  split; apply Z.bits_inj'; intros k Hk;
    rewrite ?pinInput_bits, ?pinOutput_bits, ?pinInput_bits by lia;
    destruct (k =? x), (Z.testbit d k); reflexivity.
Qed.

Lemma pin_direction_witness :
  is_u8 (NEO_on 1) /\ is_u8 (NEO_off 3)
  /\ pinInput (pinOutput 1 PIN_ENABLE) PIN_ENABLE = pinInput 1 PIN_ENABLE.
Proof.
  destruct (pin_direction_one_bit 1 PIN_ENABLE) as (_ & Ho & _ & Hr & _).
  - unfold is_u8. lia.
  - unfold PIN_ENABLE. lia.
  - destruct (pin_direction_one_bit 3 PIN_ENABLE) as (_ & _ & Hi & _).
    + unfold is_u8. lia.
    + unfold PIN_ENABLE. lia.
    + split; [ exact Ho | split; [ exact Hi | exact Hr ] ].
Defined.

(** The pixel functions append to the line. *)
Lemma NEO_writeColor_app (r g b : Z) (w : wire) :
  NEO_writeColor r g b w = w ++ NEO_writeColor r g b [].
Proof. rewrite !NEO_writeColor_bits. reflexivity. Qed.

Lemma NEO_writeHue_app (h b : Z) (w : wire) :
  NEO_writeHue h b w = w ++ NEO_writeHue h b [].
Proof.
  unfold NEO_writeHue. cbv zeta.
  destruct (Z.shiftr h 4) as [|q|q];
    [ | destruct q as [q|[q|q|]|] | ];
    first [ apply NEO_writeColor_app | symmetry; apply app_nil_r ].
Qed.

Lemma NEO_writeHue_on_wheel (h b : Z) :
  0 <= h <= 47 -> length (NEO_writeHue h b []) = 24%nat.
Proof.
  intros Hh. unfold NEO_writeHue. cbv zeta.
  assert (Hp : 0 <= Z.shiftr h 4 <= 2).
  { rewrite Z.shiftr_div_pow2 by lia. change (2 ^ 4) with 16.
    Z.div_mod_to_equations. lia. }
  assert (Hcases : Z.shiftr h 4 = 0 \/ Z.shiftr h 4 = 1
                   \/ Z.shiftr h 4 = 2) by lia.
  destruct Hcases as [-> | [-> | ->]];
    rewrite NEO_writeColor_bits; reflexivity.
Qed.

Lemma NEO_writeWhite_app (b : Z) (w : wire) :
  NEO_writeWhite b w = w ++ NEO_writeWhite b [].
Proof. unfold NEO_writeWhite. apply NEO_writeColor_app. Qed.

Lemma repeat_pixel_app (n : nat) (px : wire -> wire) (w : wire) :
  (forall w', px w' = w' ++ px []) ->
  repeat_pixel n px w = w ++ concat (repeat (px []) n).
Proof.
  intros Hpx. revert w. induction n as [|n IH]; intros w.
  - cbn. symmetry. apply app_nil_r.
  - cbn [repeat_pixel repeat concat]. rewrite IH, Hpx.
    rewrite <- app_assoc. reflexivity.
Qed.

(** Twenty-four bits read as one pixel. *)
Lemma wire_pixels_one (w : wire) :
  length w = 24%nat -> exists c, wire_pixels w = [c].
Proof.
  intros Hl.
  do 24 (destruct w as [|? w]; [ discriminate Hl | ]).
  destruct w; [ | discriminate Hl ].
  unfold wire_pixels. cbn [wire_bytes bytes_pixels]. eauto.
Qed.

Lemma wire_pixels_repeat (n : nat) (bits : wire) (c : rgb) :
  length bits = 24%nat -> wire_pixels bits = [c] ->
  wire_pixels (concat (repeat bits n)) = repeat c n.
Proof.
  intros Hl Hc. induction n as [|n IH].
  - reflexivity.
  - cbn [repeat concat]. rewrite (wire_pixels_app 1) by exact Hl.
    rewrite Hc, IH. reflexivity.
Qed.

(** A pixel loop with a pixel function that sends one whole pixel. *)
Lemma repeat_pixel_frame (n : nat) (px : wire -> wire) (c : rgb) (w : wire) :
  (forall w', px w' = w' ++ px []) ->
  length (px []) = 24%nat -> sent_pixel px = Some c ->
  exists frame,
    repeat_pixel n px w = w ++ frame
    /\ length frame = (24 * n)%nat
    /\ wire_pixels frame = repeat c n.
Proof.
  intros Happ Hl Hc. exists (concat (repeat (px []) n)).
  split; [ apply repeat_pixel_app; exact Happ | ].
  split.
  - clear - Hl. induction n as [|n IH]; [ reflexivity | ].
    cbn [repeat concat]. rewrite length_app, IH, Hl. lia.
  - apply wire_pixels_repeat; [ exact Hl | ].
    unfold sent_pixel in Hc.
    destruct (wire_pixels_one (px []) Hl) as [c' Hc'].
    rewrite Hc' in Hc. injection Hc as <-. exact Hc'.
Qed.

(** X12.  A pass of the polling loop in state 1 with the encoder at a
    value [v] within 0..15 takes [v] as the brightness and appends to the
    data line one frame of eight pixels, each the white of [v]. *)
Theorem main_poll_white_frame (c : Controller) (v : Z) :
  state c = 1 -> ENC_get (encoder c) = v -> 0 <= v <= 15 ->
  exists frame,
    main_poll c
    = mkController 1 (hue c) v (anim c) (counter c) (DDRB c) (encoder c)
                   (data_line c ++ frame)
    /\ length frame = 192%nat
    /\ whiteAt v = Some (RGB (v * v) (v * v) (v * v))
    /\ wire_pixels frame = repeat (RGB (v * v) (v * v) (v * v)) 8.
Proof.
  intros Hs Hg Hv.
  assert (Hw : whiteAt v = Some (RGB (v * v) (v * v) (v * v))).
  { unfold whiteAt, sent_pixel, NEO_writeWhite.
    rewrite sqr_small by exact Hv.
    rewrite wire_pixels_writeColor by (unfold is_u8; nia).
    reflexivity. }
  destruct (repeat_pixel_frame 8 (NEO_writeWhite v) _ (data_line c)
              (NEO_writeWhite_app v)
              ltac:(unfold NEO_writeWhite; rewrite NEO_writeColor_bits;
                    reflexivity)
              Hw)
    as (frame & Hf & Hl & Hp).
  exists frame. unfold main_poll. rewrite Hs, Hg.
  rewrite (u8_small v) by lia. rewrite Hf. auto.
Qed.

Lemma main_poll_white_frame_witness :
  exists frame,
    main_poll (main_button (main_setup 28))
    = mkController 1 0 5 0 8 (NEO_on (pinOutput 0 PIN_NEO))
                   (ENC_set 2 15 1 5 0 (ENC_init 28 ENC_reset))
                   ([] ++ frame)
    /\ length frame = 192%nat
    /\ whiteAt 5 = Some (RGB 25 25 25)
    /\ wire_pixels frame = repeat (RGB 25 25 25) 8.
Proof.
  apply (main_poll_white_frame (main_button (main_setup 28)) 5);
    [ reflexivity | reflexivity | lia ].
Defined.

(** X13.  A pass of the polling loop in state 3 with the encoder at a hue
    [h] on the wheel takes [h] as the hue and appends to the data line one
    frame of eight pixels, each the colour of [h] at the stored
    brightness. *)
Theorem main_poll_hue_frame (c : Controller) (h : Z) :
  state c = 3 -> ENC_get (encoder c) = h -> 0 <= h <= 47 ->
  exists frame colour,
    main_poll c
    = mkController 3 h (bright c) (anim c) (counter c) (DDRB c) (encoder c)
                   (data_line c ++ frame)
    /\ length frame = 192%nat
    /\ hueToColor h (bright c) = Some colour
    /\ wire_pixels frame = repeat colour 8.
Proof.
  intros Hs Hg Hh.
  pose proof (NEO_writeHue_on_wheel h (bright c) Hh) as Hl.
  destruct (wire_pixels_one _ Hl) as [colour Hc].
  assert (Hsent : sent_pixel (NEO_writeHue h (bright c)) = Some colour)
    by (unfold sent_pixel; rewrite Hc; reflexivity).
  destruct (repeat_pixel_frame 8 (NEO_writeHue h (bright c)) colour
              (data_line c) (NEO_writeHue_app h (bright c)) Hl Hsent)
    as (frame & Hf & Hlen & Hp).
  exists frame, colour. unfold main_poll. rewrite Hs, Hg.
  rewrite (u8_small h) by lia. rewrite Hf. auto.
Qed.

Lemma main_poll_hue_frame_witness :
  exists frame colour,
    main_poll (main_button (main_button (main_button (main_setup 28))))
    = mkController 3 0 5 0 8 (NEO_on (pinOutput 0 PIN_NEO))
                   (ENC_set 0 48 1 0 1
                            (ENC_set 2 15 1 5 0 (ENC_init 28 ENC_reset)))
                   ([] ++ frame)
    /\ length frame = 192%nat
    /\ hueToColor 0 5 = Some colour
    /\ wire_pixels frame = repeat colour 8.
Proof.
  apply (main_poll_hue_frame
           (main_button (main_button (main_button (main_setup 28)))) 0);
    [ reflexivity | reflexivity | lia ].
Defined.

(** The hue of the next pixel of an animation step. *)
Lemma next_huey (a : Z) :
  0 <= a <= 47 ->
  (if u8 (a + 6) >? 47 then u8 (u8 (a + 6) - 48) else u8 (a + 6))
  = (a + 6) mod 48.
Proof.
  intros Ha. rewrite (u8_small (a + 6)) by lia. rewrite Z.gtb_ltb.
  destruct (Z.ltb_spec 47 (a + 6)) as [H | H].
  - rewrite u8_small by lia.
    apply Z.mod_unique with (q := 1); lia.
  - symmetry. apply Z.mod_small. lia.
Qed.

Lemma animate_pixels_frame (n : nat) (a b : Z) (w : wire) :
  0 <= a <= 47 ->
  exists frame,
    animate_pixels n a b w = w ++ frame
    /\ length frame = (24 * n)%nat
    /\ map Some (wire_pixels frame)
       = map (fun j => hueToColor ((a + 6 * Z.of_nat j) mod 48) b)
             (seq 0 n).
Proof.
  revert a w. induction n as [|n IH]; intros a w Ha.
  - exists []. cbn. rewrite app_nil_r. auto.
  - cbn [animate_pixels]. rewrite next_huey by exact Ha.
    assert (Ha' : 0 <= (a + 6) mod 48 <= 47)
      by (pose proof (Z.mod_pos_bound (a + 6) 48 ltac:(lia)); lia).
    destruct (IH ((a + 6) mod 48) (NEO_writeHue a b w) Ha')
      as (frame & Hf & Hl & Hp).
    pose proof (NEO_writeHue_on_wheel a b Ha) as Hl1.
    destruct (wire_pixels_one _ Hl1) as [c Hc].
    exists (NEO_writeHue a b [] ++ frame).
    split; [ rewrite Hf, NEO_writeHue_app, <- app_assoc; reflexivity | ].
    split; [ rewrite length_app, Hl, Hl1; lia | ].
    rewrite (wire_pixels_app 1) by exact Hl1.
    rewrite map_app, Hp, Hc. cbn [map app seq].
    f_equal.
    + unfold hueToColor, sent_pixel.
      replace ((a + 6 * Z.of_nat 0) mod 48) with a
        by (cbn [Z.of_nat]; rewrite Z.mul_0_r, Z.add_0_r;
            symmetry; apply Z.mod_small; lia).
      rewrite Hc. reflexivity.
    + rewrite <- seq_shift, map_map. apply map_ext. intros j.
      f_equal. rewrite Zplus_mod_idemp_l. f_equal. lia.
Qed.

(** X14.  When the delay counter runs out in state 2, the pass sends one
    frame of eight pixels whose hues are six steps apart around the wheel,
    starting at the animation phase; the phase moves on by one around the
    wheel and the counter is reloaded from the encoder. *)
Theorem main_poll_animation_step (c : Controller) :
  state c = 2 -> counter c = 1 -> 0 <= anim c <= 47 ->
  exists frame,
    main_poll c
    = mkController 2 (hue c) (bright c) ((anim c + 1) mod 48)
                   (u8 (ENC_get (encoder c))) (DDRB c) (encoder c)
                   (data_line c ++ frame)
    /\ length frame = 192%nat
    /\ map Some (wire_pixels frame)
       = map (fun j => hueToColor ((anim c + 6 * j) mod 48) (bright c))
             [0; 1; 2; 3; 4; 5; 6; 7].
Proof.
  intros Hs Hcn Ha.
  destruct (animate_pixels_frame 8 (anim c) (bright c) (data_line c) Ha)
    as (frame & Hf & Hl & Hp).
  exists frame. unfold main_poll. rewrite Hs, Hcn. cbn [Z.sub Z.add Z.opp
    Z.pos_sub u8 Z.modulo Z.div_eucl Z.eqb].
  rewrite Hf. split; [ | split; [ exact Hl | exact Hp ] ].
  f_equal. rewrite (u8_small (anim c + 1)) by lia. rewrite Z.gtb_ltb.
  destruct (Z.ltb_spec 47 (anim c + 1)) as [H | H].
  - replace (anim c) with 47 by lia. reflexivity.
  - symmetry. apply Z.mod_small. lia.
Qed.

Lemma main_poll_animation_step_witness :
  exists frame,
    main_poll (mkController 2 0 5 46 1 3 ENC_reset [])
    = mkController 2 0 5 ((46 + 1) mod 48) (u8 (ENC_get ENC_reset)) 3
                   ENC_reset ([] ++ frame)
    /\ length frame = 192%nat
    /\ map Some (wire_pixels frame)
       = map (fun j => hueToColor ((46 + 6 * j) mod 48) 5)
             [0; 1; 2; 3; 4; 5; 6; 7].
Proof.
  apply (main_poll_animation_step (mkController 2 0 5 46 1 3 ENC_reset []));
    [ reflexivity | reflexivity | cbn; lia ].
Defined.

(** X15.  In state 2 the delay counter counts passes of the polling loop:
    while fewer passes have gone by than the counter holds, they have
    changed nothing but the counter, which is down by their number, and
    nothing has been sent. *)
Theorem main_poll_animation_delay (k : nat) (c : Controller) :
  state c = 2 -> is_u8 (counter c) -> Z.of_nat k < counter c ->
  main_run (repeat Poll k) c
  = mkController (state c) (hue c) (bright c) (anim c)
                 (counter c - Z.of_nat k) (DDRB c) (encoder c) (data_line c).
Proof.
  revert c. induction k as [|k IH]; intros c Hs Hu Hk.
  - cbn [repeat main_run fold_left Z.of_nat]. rewrite Z.sub_0_r.
    destruct c; reflexivity.
  - unfold is_u8 in Hu. rewrite Nat2Z.inj_succ in Hk.
    cbn [repeat main_run fold_left main_step].
    assert (Hp : main_poll c
                 = mkController (state c) (hue c) (bright c) (anim c)
                                (counter c - 1) (DDRB c) (encoder c)
                                (data_line c)).
    { unfold main_poll. rewrite Hs.
      rewrite (u8_small (counter c - 1)) by lia.
      destruct (Z.eqb_spec (counter c - 1) 0); [ lia | ].
      rewrite <- Hs. reflexivity. }
    rewrite Hp. unfold main_run in IH. rewrite IH; cbn [state counter hue
      bright anim DDRB encoder data_line]; try assumption.
    + f_equal. rewrite Nat2Z.inj_succ. lia.
    + unfold is_u8. lia.
    + lia.
Qed.

Lemma main_poll_animation_delay_witness :
  main_run (repeat Poll 7) (mkController 2 0 5 0 8 3 ENC_reset [])
  = mkController 2 0 5 0 (8 - Z.of_nat 7) 3 ENC_reset [].
Proof.
  apply (main_poll_animation_delay 7 (mkController 2 0 5 0 8 3 ENC_reset []));
    [ reflexivity | unfold is_u8; cbn; lia | cbn; lia ].
Defined.

Lemma ENC_get_range (e : Encoder) (lo hi : Z) :
  ENC_in_bounds e ->
  ENC_countMin e = 2 * lo -> ENC_countMax e = 2 * hi ->
  lo <= ENC_get e <= hi.
Proof.
  unfold ENC_in_bounds, ENC_get. intros Hb Hlo Hhi.
  rewrite Z.shiftr_div_pow2 by lia. change (2 ^ 1) with 2.
  Z.div_mod_to_equations. lia.
Qed.

Lemma main_inv_setup (PINB : Z) : main_inv (main_setup PINB).
Proof.
  unfold main_inv, main_setup, ENC_in_bounds, rail_on.
  cbn [state bright hue anim counter DDRB encoder ENC_init ENC_reset
       ENC_count ENC_countMin ENC_countMax].
  repeat split; try lia; try reflexivity;
    intros H; try discriminate H; destruct H as [H | H]; discriminate H.
Qed.

Lemma main_inv_poll (c : Controller) : main_inv c -> main_inv (main_poll c).
Proof.
  destruct c as [st h b a cn d en w]. unfold main_inv, rail_on.
  cbn [state bright hue anim counter DDRB encoder].
  intros (Hs & Hb & Hh & Ha & Hcn & Hneo & Hrail & Hen & H12 & H3).
  assert (Hcases : st = 0 \/ st = 1 \/ st = 2 \/ st = 3) by lia.
  destruct Hcases as [-> | [-> | [-> | ->]]]; unfold main_poll;
    cbn [state bright hue anim counter DDRB encoder].
  - repeat split; auto; try (unfold ENC_in_bounds in *; lia).
  - destruct (H12 (or_introl eq_refl)) as [Hmn Hmx].
    pose proof (ENC_get_range en 2 15 Hen Hmn Hmx) as Hg.
    rewrite (u8_small (ENC_get en)) by lia.
    repeat split; auto; try (unfold ENC_in_bounds in *; lia).
  - destruct (H12 (or_intror eq_refl)) as [Hmn Hmx].
    pose proof (ENC_get_range en 2 15 Hen Hmn Hmx) as Hg.
    rewrite (u8_small (cn - 1)) by lia.
    destruct (Z.eqb_spec (cn - 1) 0) as [Hz | Hz];
      cbn [state bright hue anim counter DDRB encoder].
    + rewrite (u8_small (ENC_get en)) by lia.
      rewrite (u8_small (a + 1)) by lia. rewrite Z.gtb_ltb.
      destruct (Z.ltb_spec 47 (a + 1)); repeat split; auto; try (unfold ENC_in_bounds in *; lia).
    + repeat split; auto; try (unfold ENC_in_bounds in *; lia).
  - destruct (H3 eq_refl) as [Hmn Hmx].
    pose proof (ENC_get_range en 0 48 Hen Hmn Hmx) as Hg.
    rewrite (u8_small (ENC_get en)) by lia.
    repeat split; auto; try (unfold ENC_in_bounds in *; lia).
Qed.

Lemma main_inv_pin_change (c : Controller) (p : Z) :
  main_inv c -> main_inv (main_step c (PinChange p)).
Proof.
  unfold main_inv, rail_on. cbn [main_step state bright hue anim counter
    DDRB encoder].
  intros (Hs & Hb & Hh & Ha & Hcn & Hneo & Hrail & Hen & H12 & H3).
  destruct (PCINT0_vect_config p (encoder c)) as (_ & Hmn & Hmx & _).
  pose proof (PCINT0_vect_in_bounds p (encoder c) Hen) as Hen'.
  rewrite Hmn, Hmx.
  repeat split; auto; try (unfold ENC_in_bounds in *; lia).
Qed.

Lemma main_inv_button (c : Controller) : main_inv c -> main_inv (main_button c).
Proof.
  destruct c as [st h b a cn d en w]. unfold main_inv, rail_on.
  cbn [state bright hue anim counter DDRB encoder].
  intros (Hs & Hb & Hh & Ha & Hcn & Hneo & Hrail & Hen & H12 & H3).
  assert (Hcases : st = 0 \/ st = 1 \/ st = 2 \/ st = 3) by lia.
  assert (Hon : Z.testbit (NEO_on d) PIN_NEO = true)
    by (unfold NEO_on; rewrite pinOutput_bits by (cbv; discriminate);
        rewrite Hneo; reflexivity).
  assert (Hoff : Z.testbit (NEO_off d) PIN_NEO = true)
    by (unfold NEO_off; rewrite pinInput_bits by (cbv; discriminate);
        rewrite Hneo; reflexivity).
  destruct Hcases as [-> | [-> | [-> | ->]]]; unfold main_button;
    cbn [state bright hue anim counter DDRB encoder u8 Z.add Z.modulo
         Z.div_eucl Z.pos_div_eucl Z.gtb Z.compare Pos.compare
         Pos.compare_cont Pos.add Pos.succ Z.leb Z.ltb Z.sub Z.opp
         Z.pos_sub Z.of_N Z.mul Pos.mul Pos.pred_double Z.succ_double
         Z.pred_double Z.double].
  - (* 0 -> 1 *)
    destruct (ENC_set_in_bounds 2 15 1 b 0 en
                ltac:(lia) ltac:(lia) ltac:(lia) ltac:(lia))
      as (Hin & _ & Hmn & Hmx).
    unfold ENC_in_bounds in Hin.
    repeat split; auto; try lia; try apply rail_on_NEO_on;
      intros H; discriminate H.
  - (* 1 -> 2 *)
    repeat split; auto; try (unfold ENC_in_bounds in *; lia);
      try (intros _; apply H12; left; reflexivity);
      intros H; discriminate H.
  - (* 2 -> 3 *)
    destruct (ENC_set_in_bounds 0 48 1 h 1 en
                ltac:(lia) ltac:(lia) ltac:(lia) ltac:(lia))
      as (Hin & _ & Hmn & Hmx).
    unfold ENC_in_bounds in Hin.
    repeat split; auto; try lia;
      intros [H | H]; discriminate H.
  - (* 3 -> 0 *)
    repeat split; auto; try (unfold ENC_in_bounds in *; lia);
      try apply rail_on_NEO_off;
      try (intros [H | H]; discriminate H);
      intros H; discriminate H.
Qed.

Lemma main_inv_run (evs : list event) (c : Controller) :
  main_inv c -> main_inv (main_run evs c).
Proof.
  revert c. induction evs as [|ev evs IH]; intros c Hc.
  - exact Hc.
  - cbn [main_run fold_left]. apply IH.
    destruct ev as [ | p | ].
    + apply main_inv_poll. exact Hc.
    + apply main_inv_pin_change. exact Hc.
    + apply main_inv_button. exact Hc.
Qed.

(** X16.  Whatever happens after reset, the variables stay in range: the
    state within 0..3, the brightness within 2..15, the hue within 0..48,
    the animation phase within 0..47 and the delay counter within 1..15;
    the data pin stays an output, the rail is on exactly in the states 1
    to 3, and the encoder position stays within its bounds. *)
Theorem main_variables_in_range (PINB : Z) (evs : list event) :
  let c := main_run evs (main_setup PINB) in
  0 <= state c <= 3
  /\ 2 <= bright c <= 15
  /\ 0 <= hue c <= 48
  /\ 0 <= anim c <= 47
  /\ 1 <= counter c <= 15
  /\ Z.testbit (DDRB c) PIN_NEO = true
  /\ rail_on c = negb (state c =? 0)
  /\ ENC_in_bounds (encoder c).
Proof.
  cbv zeta.
  destruct (main_inv_run evs (main_setup PINB) (main_inv_setup PINB))
    as (H1 & H2 & H3 & H4 & H5 & H6 & H7 & H8 & _).
  repeat split; assumption || apply H1 || apply H2 || apply H3
                || apply H4 || apply H5 || apply H8.
Qed.

Lemma repeat_pixel_length (n : nat) (px : wire -> wire) (w : wire) :
  (forall w', px w' = w' ++ px []) ->
  length (repeat_pixel n px w) = (length w + n * length (px []))%nat.
Proof.
  intros Hpx. rewrite repeat_pixel_app by exact Hpx.
  rewrite length_app. f_equal.
  induction n as [|n IH]; [ reflexivity | ].
  cbn [repeat concat]. rewrite length_app, IH. lia.
Qed.

Lemma main_button_data_line (c : Controller) :
  data_line (main_button c) = data_line c.
Proof.
  unfold main_button.
  destruct (if u8 (state c + 1) >? 3 then 0 else u8 (state c + 1))
    as [|q|q]; [ | destruct q as [[q|q|]|q|] | ]; reflexivity.
Qed.

(** A pass of the polling loop sends one frame or nothing. *)
Lemma main_poll_length (c : Controller) :
  main_inv c ->
  length (data_line (main_poll c)) = length (data_line c)
  \/ length (data_line (main_poll c)) = (length (data_line c) + 192)%nat.
Proof.
  intros Hinv. pose proof Hinv as Hinv'.
  destruct Hinv' as (Hs & Hb & Hh & Ha & Hcn & _ & _ & Hen & H12 & H3).
  assert (Hcases : state c = 0 \/ state c = 1 \/ state c = 2
                   \/ state c = 3) by lia.
  unfold main_poll.
  destruct Hcases as [E | [E | [E | E]]]; rewrite E.
  - left. reflexivity.
  - right. cbn [data_line].
    rewrite repeat_pixel_length by apply NEO_writeWhite_app.
    unfold NEO_writeWhite. rewrite NEO_writeColor_bits. reflexivity.
  - destruct (u8 (counter c - 1) =? 0); cbn [data_line].
    + right.
      destruct (animate_pixels_frame 8 (anim c) (bright c) (data_line c) Ha)
        as (frame & -> & Hl & _).
      rewrite length_app, Hl. reflexivity.
    + left. reflexivity.
  - destruct (H3 E) as [Hmn Hmx].
    pose proof (ENC_get_range (encoder c) 0 48 Hen Hmn Hmx) as Hg.
    cbn [data_line]. rewrite (u8_small (ENC_get (encoder c))) by lia.
    destruct (Z.le_gt_cases (ENC_get (encoder c)) 47) as [Hw | Hw].
    + right. rewrite repeat_pixel_length by apply NEO_writeHue_app.
      rewrite NEO_writeHue_on_wheel by lia. reflexivity.
    + left. rewrite repeat_pixel_nothing; [ reflexivity | ].
      intros w'. apply NEO_writeHue_outside. lia.
Qed.

(** X17.  Only whole frames go out: whatever happens after reset, the
    number of bits sent on the data line is a multiple of 192, eight
    pixels of twenty-four bits, and a pass of the polling loop adds one
    frame or nothing. *)
Theorem data_line_whole_frames (PINB : Z) (evs : list event) :
  let c := main_run evs (main_setup PINB) in
  (exists n, length (data_line c) = (192 * n)%nat)
  /\ (length (data_line (main_poll c)) = length (data_line c)
      \/ length (data_line (main_poll c))
         = (length (data_line c) + 192)%nat).
Proof.
  cbv zeta. split.
  - assert (Hgen : forall c,
               main_inv c ->
               (exists n, length (data_line c) = (192 * n)%nat) ->
               exists n,
                 length (data_line (main_run evs c)) = (192 * n)%nat).
    { induction evs as [|ev evs IH]; intros c Hinv Hc.
      - exact Hc.
      - cbn [main_run fold_left]. apply IH.
        + destruct ev as [ | p | ].
          * apply main_inv_poll. exact Hinv.
          * apply main_inv_pin_change. exact Hinv.
          * apply main_inv_button. exact Hinv.
        + destruct Hc as [n Hn]. destruct ev as [ | p | ].
          * cbn [main_step].
            destruct (main_poll_length c Hinv) as [H | H].
            -- exists n. rewrite H. exact Hn.
            -- exists (S n). rewrite H, Hn. lia.
          * exists n. exact Hn.
          * exists n. cbn [main_step].
            rewrite main_button_data_line. exact Hn. }
    apply Hgen; [ apply main_inv_setup | ].
    exists 0%nat. reflexivity.
  - apply main_poll_length. apply main_inv_run. apply main_inv_setup.
Qed.

(** In state 0 nothing but the encoder changes. *)
Lemma off_step (c : Controller) (ev : event) :
  state c = 0 -> ev <> Button ->
  main_step c ev
  = mkController (state c) (hue c) (bright c) (anim c) (counter c) (DDRB c)
                 (encoder (main_step c ev)) (data_line c).
Proof.
  intros Hs Hev. destruct ev as [ | p | ]; [ | | congruence ].
  - destruct c as [st h b a cn d en w]. cbn [state] in Hs. subst st.
    reflexivity.
  - reflexivity.
Qed.

(** X18.  While the light is off nothing is sent and turning the knob is
    forgotten: passes of the polling loop and pin change interrupts in
    state 0 change the encoder variables only, and the press that
    switches the light on sets the encoder back to the stored brightness,
    which the first pass in state 1 reads. *)
Theorem off_forgets_knob (evs : list event) (c : Controller) :
  state c = 0 -> no_button evs -> is_u8 (bright c) ->
  let c0 := main_run evs c in
  let c1 := main_button c0 in
  c0 = mkController 0 (hue c) (bright c) (anim c) (counter c) (DDRB c)
                    (encoder c0) (data_line c)
  /\ state c1 = 1
  /\ ENC_get (encoder c1) = bright c
  /\ bright (main_poll c1) = bright c
  /\ hue (main_poll c1) = hue c.
Proof.
  intros Hs Hevs Hb.
  assert (Hrun : main_run evs c
                 = mkController 0 (hue c) (bright c) (anim c) (counter c)
                                (DDRB c) (encoder (main_run evs c))
                                (data_line c)).
  { clear Hb. revert c Hs. induction Hevs as [|ev evs Hev Hevs IH];
      intros c Hs.
    - destruct c as [st h b a cn d en w]. cbn [state] in Hs. subst st.
      reflexivity.
    - cbn [main_run fold_left].
      pose proof (off_step c ev Hs Hev) as Hstep.
      assert (Hs' : state (main_step c ev) = 0)
        by (rewrite Hstep; exact Hs).
      unfold main_run in IH. rewrite (IH (main_step c ev) Hs') at 1.
      rewrite Hstep. reflexivity. }
  cbv zeta. split; [ exact Hrun | ].
  rewrite Hrun. unfold main_button.
  cbn [state hue bright anim counter DDRB encoder data_line u8 Z.add
       Z.modulo Z.div_eucl Z.pos_div_eucl Z.gtb Z.compare Pos.compare
       Pos.compare_cont Z.leb Z.ltb Z.of_N].
  unfold main_poll. cbn [state hue bright encoder].
  rewrite ENC_get_set by exact Hb.
  rewrite u8_small by exact Hb. auto.
Qed.

Lemma off_forgets_knob_witness :
  ENC_get (encoder (main_button
                      (main_run [PinChange 20; PinChange 12; Poll]
                                (main_setup 28)))) = 5
  /\ bright (main_poll (main_button
                          (main_run [PinChange 20; PinChange 12; Poll]
                                    (main_setup 28)))) = 5.
Proof.
  assert (Hnb : no_button [PinChange 20; PinChange 12; Poll])
    by (repeat constructor; discriminate).
  destruct (off_forgets_knob [PinChange 20; PinChange 12; Poll]
                             (main_setup 28) eq_refl Hnb)
    as (_ & _ & Hg & Hb & _).
  - unfold is_u8. cbn. lia.
  - split; [ exact Hg | exact Hb ].
Defined.
